(** * Bouncing balls: the simulation step and the initialization of
    [src/App.tsx], embedded and verified.

    Numbers.  A TypeScript [number] is modelled by an exact rational
    ([Q]): every finite double is a rational, and the development is
    about the arithmetic and the comparisons the code writes, without
    rounding, [NaN] or infinities.  [Math.max], [Math.min] and
    [Math.floor] are [Qmax], [Qmin] and [Qfloor]; [<=] and [>=] are
    [Qle_bool].

    Objects.  The array held by [ballsRef] is a [list] of records: every
    element is an object of its own ([initializeBalls] pushes a new
    object literal per round), so no two indices share an object.
    [forEach] with a callback that mutates the visited object is an index
    loop that writes the mutated record back at its index.

    Effects.  [Math.random] reads a random source, an infinite sequence of
    draws given as a function of the position, and moves it one draw
    forward.  Code that draws lives in the state monad [Rand].

    Doubles.  Where a property depends on the rounding of [+] and [-],
    the step is also given on the doubles themselves (module [Double],
    on the binary64 floats of the kernel), and the property is proved
    there.

    Browser.  The 2D context is the list of the calls it has received;
    [requestAnimationFrame] keeps the callbacks waiting for the next
    frame, each with its request id; a click, a frame and a resize are
    events on the mounted page ([Page], [handle]), and after a state
    change React runs the cleanup and the effect that depend on it. *)

From Stdlib Require Import Floats.
From Stdlib Require Import QArith Qround Qminmax Qabs Lqa.
From stdpp Require Import list strings.

Local Open Scope Q_scope.

(** ** Data model *)

(** [interface Ball].  [color] is a string in the interface; the value
    stored is whatever an array read returned, and [None] stands for
    JavaScript's [undefined]. *)
Module Ball.
Record t : Type := mk {
  id : Z;
  x : Q;
  y : Q;
  vx : Q;
  vy : Q;
  radius : Q;
  color : option string
}.

(** Assignments to one field of the object. *)
Definition set_x (v : Q) (b : t) : t :=
  mk (id b) v (y b) (vx b) (vy b) (radius b) (color b).
Definition set_y (v : Q) (b : t) : t :=
  mk (id b) (x b) v (vx b) (vy b) (radius b) (color b).
Definition set_vx (v : Q) (b : t) : t :=
  mk (id b) (x b) (y b) v (vy b) (radius b) (color b).
Definition set_vy (v : Q) (b : t) : t :=
  mk (id b) (x b) (y b) (vx b) v (radius b) (color b).
End Ball.

(** The part of the canvas element the code reads. *)
Record Canvas : Type := { width : Q; height : Q }.

Definition BALL_COUNT : nat := 20.
Definition BALL_RADIUS : Q := 12.
Definition SPEED_MULTIPLIER : Q := 2.

(** The refs and the state of the component that the modelled functions
    touch: [canvasRef.current] ([None] when it is null), [ballsRef.current]
    and the [ballCount] state. *)
Record App : Type := {
  canvasRef : option Canvas;
  ballsRef : list Ball.t;
  ballCount : nat
}.

(** ** JavaScript primitives *)

Definition Math_max (a b : Q) : Q := Qmax a b.
Definition Math_min (a b : Q) : Q := Qmin a b.
Definition Math_floor (a : Q) : Z := Qfloor a.

(** [a <= b] and [a >= b] on numbers. *)
Definition js_le (a b : Q) : bool := Qle_bool a b.
Definition js_ge (a b : Q) : bool := Qle_bool b a.

(** [arr[k]] for an integer-valued number [k]: [undefined] out of range. *)
Definition array_get {A : Type} (arr : list A) (k : Z) : option A :=
  if (k <? 0)%Z then None else arr !! Z.to_nat k.

(** [arr.forEach(f)] where [f] mutates the object it is given: the
    indices [0 .. length-1] are visited in order, and the object at the
    index is replaced by its mutated state. *)
Fixpoint forEach_from (n i : nat) (f : Ball.t → Ball.t) (arr : list Ball.t)
  : list Ball.t :=
  match n with
  | O => arr
  | S n' =>
      match arr !! i with
      | Some b => forEach_from n' (S i) f (<[i := f b]> arr)
      | None => forEach_from n' (S i) f arr
      end
  end.

Definition forEach (f : Ball.t → Ball.t) (arr : list Ball.t) : list Ball.t :=
  forEach_from (length arr) 0 f arr.

(** ** The simulation step: [updateBalls] *)

(** The body of the callback given to [forEach], one assignment after
    the other, each reading the fields as the previous ones left them. *)
Definition update_ball (canvas : Canvas) (ball : Ball.t) : Ball.t :=
  (* Update position *)
  let ball := Ball.set_x (Ball.x ball + Ball.vx ball) ball in
  let ball := Ball.set_y (Ball.y ball + Ball.vy ball) ball in
  (* Bounce off walls *)
  let ball :=
    if js_le (Ball.x ball) (Ball.radius ball)
       || js_ge (Ball.x ball) (width canvas - Ball.radius ball)
    then
      let ball := Ball.set_vx (- Ball.vx ball) ball in
      Ball.set_x
        (Math_max (Ball.radius ball)
           (Math_min (width canvas - Ball.radius ball) (Ball.x ball)))
        ball
    else ball in
  let ball :=
    if js_le (Ball.y ball) (Ball.radius ball)
       || js_ge (Ball.y ball) (height canvas - Ball.radius ball)
    then
      let ball := Ball.set_vy (- Ball.vy ball) ball in
      Ball.set_y
        (Math_max (Ball.radius ball)
           (Math_min (height canvas - Ball.radius ball) (Ball.y ball)))
        ball
    else ball in
  ball.

(** [updateBalls]: nothing happens without a canvas. *)
Definition updateBalls (app : App) : App :=
  match canvasRef app with
  | None => app
  | Some canvas =>
      {| canvasRef := canvasRef app;
         ballsRef := forEach (update_ball canvas) (ballsRef app);
         ballCount := ballCount app |}
  end.

(** ** Randomness *)

(** The random source: the sequence of the values the coming calls of
    [Math.random] return. *)
Definition RandomSource : Type := nat → Q.

(** A computation that draws: from a source to a result and the rest of
    the source. *)
Definition Rand (A : Type) : Type := RandomSource → A * RandomSource.

Definition ret {A : Type} (a : A) : Rand A := fun rs => (a, rs).

Definition bind {A B : Type} (m : Rand A) (k : A → Rand B) : Rand B :=
  fun rs => let (a, rs') := m rs in k a rs'.

Notation "'let*' v ':=' m 'in' k" := (bind m (fun v => k))
  (at level 10, v name, m at level 100, k at level 200,
   format "'let*'  v  ':='  m  'in' '//' k").

(** The source after [n] draws. *)
Definition advance (n : nat) (rs : RandomSource) : RandomSource :=
  fun k => rs (n + k)%nat.

(** [Math.random()]: the next draw. *)
Definition Math_random : Rand Q := fun rs => (rs 0%nat, advance 1 rs).

(** What the language promises of [Math.random]: every draw is in [0, 1). *)
Definition unit_draws (rs : RandomSource) : Prop :=
  ∀ n : nat, 0 <= rs n ∧ rs n < 1.

(** ** Initialization: [getRandomColor] and [initializeBalls] *)

Definition colors : list string :=
  [ "#FF6B6B"; "#4ECDC4"; "#45B7D1"; "#96CEB4"; "#FECA57";
    "#FF9FF3"; "#54A0FF"; "#5F27CD"; "#00D2D3"; "#FF9F43" ]%string.

(** The index [getRandomColor] reads for a draw. *)
Definition color_index (draw : Q) : Z :=
  Math_floor (draw * inject_Z (Z.of_nat (length colors))).

Definition getRandomColor : Rand (option string) :=
  let* r := Math_random in
  ret (array_get colors (color_index r)).

(** The object pushed by one round of the loop; the fields are evaluated
    in the order they are written, so the draws are those of [x], [y],
    [vx], [vy] and the colour, in this order. *)
Definition new_ball (canvas : Canvas) (i : Z) : Rand Ball.t :=
  let* rx := Math_random in
  let* ry := Math_random in
  let* rvx := Math_random in
  let* rvy := Math_random in
  let* c := getRandomColor in
  ret (Ball.mk i
         (rx * (width canvas - BALL_RADIUS * 2) + BALL_RADIUS)
         (ry * (height canvas - BALL_RADIUS * 2) + BALL_RADIUS)
         ((rvx - 0.5) * SPEED_MULTIPLIER)
         ((rvy - 0.5) * SPEED_MULTIPLIER)
         BALL_RADIUS
         c).

(** [for (let i = ...; i < BALL_COUNT; i++) balls.push(...)], with [n]
    the number of rounds left, [n = BALL_COUNT - i]. *)
Fixpoint push_balls (canvas : Canvas) (n : nat) (i : Z) (balls : list Ball.t)
  : Rand (list Ball.t) :=
  match n with
  | O => ret balls
  | S n' =>
      let* b := new_ball canvas i in
      push_balls canvas n' (i + 1)%Z (balls ++ [b])
  end.

(** [initializeBalls]: nothing happens (and nothing is drawn) without a
    canvas; otherwise a new array replaces the one of [ballsRef]. *)
Definition initializeBalls (app : App) : Rand App :=
  match canvasRef app with
  | None => ret app
  | Some canvas =>
      let* balls := push_balls canvas BALL_COUNT 0 [] in
      ret {| canvasRef := canvasRef app;
             ballsRef := balls;
             ballCount := length balls |}
  end.

(** ** The step in the words of the specification *)

(** One axis of a particle in the specification's words: the position
    moves by the velocity; at or beyond a wall the velocity is negated
    and the position brought back between the walls. *)
Definition spec_axis (p v r limit : Q) : Q * Q :=
  let p1 := p + v in
  if Qle_bool p1 r || Qle_bool (limit - r) p1
  then (Qmax r (Qmin (limit - r) p1), - v)
  else (p1, v).

Definition spec_step (canvas : Canvas) (b : Ball.t) : Ball.t :=
  let (x', vx') := spec_axis (Ball.x b) (Ball.vx b) (Ball.radius b) (width canvas) in
  let (y', vy') := spec_axis (Ball.y b) (Ball.vy b) (Ball.radius b) (height canvas) in
  Ball.mk (Ball.id b) x' y' vx' vy' (Ball.radius b) (Ball.color b).

(** [c] is [p] clamped into the non-empty interval from [lo] to [hi]. *)
Definition clamped (lo hi p c : Q) : Prop :=
  lo <= c ∧ c <= hi ∧
  (lo <= p → p <= hi → c == p) ∧ (p <= lo → c == lo) ∧ (hi <= p → c == hi).

(** Concrete inputs: the scenario of the specification (400 by 300,
    radius 12, a particle at (5, 150) with velocity (-3, 0)). *)
Definition canvas0 : Canvas := {| width := 400; height := 300 |}.
Definition ball0 : Ball.t := Ball.mk 0 5 150 (-3) 0 12 (Some "#FF6B6B"%string).
Definition app0 : App :=
  {| canvasRef := Some canvas0; ballsRef := [ball0]; ballCount := 1 |}.

(** A particle inside the walls, one unit from the left one, moving left. *)
Definition ball1 : Ball.t := Ball.mk 1 13 150 (-3) 0 12 (Some "#4ECDC4"%string).

Definition app1 : App :=
  {| canvasRef := Some canvas0; ballsRef := [ball1]; ballCount := 1 |}.

(** [n] steps in a row. *)
Definition steps (n : nat) (app : App) : App := Nat.iter n updateBalls app.

(** A particle far from the walls. *)
Definition ball2 : Ball.t := Ball.mk 7 100 150 (-3) 2 12 None.
Definition app2 : App :=
  {| canvasRef := Some canvas0; ballsRef := [ball2]; ballCount := 1 |}.

(** A canvas narrower and lower than a ball. *)
Definition narrow : Canvas := {| width := 20; height := 10 |}.
Definition app_narrow : App :=
  {| canvasRef := Some narrow; ballsRef := [ball0; ball1]; ballCount := 2 |}.

(** The ball [new_ball] builds from its five draws. *)
Definition ball_of_draws (canvas : Canvas) (i : Z) (rx ry rvx rvy rc : Q)
  : Ball.t :=
  Ball.mk i
    (rx * (width canvas - BALL_RADIUS * 2) + BALL_RADIUS)
    (ry * (height canvas - BALL_RADIUS * 2) + BALL_RADIUS)
    ((rvx - 0.5) * SPEED_MULTIPLIER)
    ((rvy - 0.5) * SPEED_MULTIPLIER)
    BALL_RADIUS
    (array_get colors (color_index rc)).

(** An application that has its canvas and no balls yet. *)
Definition app_fresh : App :=
  {| canvasRef := Some canvas0; ballsRef := []; ballCount := 0 |}.

(** A random source alternating between two values. *)
Definition draws_alt : RandomSource :=
  fun n => if Nat.even n then 1 # 4 else 3 # 4.

(** A random source whose third draw, the one of the first [vx], is 0.5. *)
Definition draws_half : RandomSource :=
  fun n => if (n =? 2)%nat then 1 # 2 else 1 # 4.

(** The centre of the particle is at least a radius from every wall. *)
Definition in_bounds (canvas : Canvas) (b : Ball.t) : Prop :=
  (Ball.radius b <= Ball.x b ∧ Ball.x b <= width canvas - Ball.radius b) ∧
  (Ball.radius b <= Ball.y b ∧ Ball.y b <= height canvas - Ball.radius b).

(** The position [(px, py)] is more than a radius from every wall. *)
Definition strictly_interior (canvas : Canvas) (r px py : Q) : Prop :=
  (r < px ∧ px < width canvas - r) ∧ (r < py ∧ py < height canvas - r).

(** ** Resizing: [resizeCanvas] and the resize handler *)

(** The parent element of the canvas, as far as [resizeCanvas] reads it. *)
Record Container : Type := { clientWidth : Q; clientHeight : Q }.

(** [resizeCanvas], given what [canvas.parentElement] is ([None] when it
    is null): without a canvas nothing happens; with a container the
    canvas takes its client width, then its client height. *)
Definition resizeCanvas (parentElement : option Container) (app : App) : App :=
  match canvasRef app with
  | None => app
  | Some canvas =>
      match parentElement with
      | Some container =>
          let canvas := {| width := clientWidth container;
                           height := height canvas |} in
          let canvas := {| width := width canvas;
                           height := clientHeight container |} in
          {| canvasRef := Some canvas;
             ballsRef := ballsRef app;
             ballCount := ballCount app |}
      | None => app
      end
  end.

(** [handleResize], also the body of the effect run once after mounting:
    [resizeCanvas(); initializeBalls();]. *)
Definition handleResize (parentElement : option Container) (app : App)
  : Rand App :=
  initializeBalls (resizeCanvas parentElement app).

(** ** Drawing: [drawBalls] *)

(** The calls the code makes on the 2D context.  [SetFillStyle] is the
    assignment [ctx.fillStyle = v], with [None] for [undefined]. *)
Inductive DrawCmd : Type :=
| SetFillStyle (v : option string)
| FillRect (x y w h : Q)
| BeginPath
| Arc (x y r startAngle endAngle : Q)
| Fill.

(** [Math.PI], the double nearest to pi, which is this rational. *)
Definition Math_PI : Q := 884279719003555 # 281474976710656.

(** The body of the callback of [drawBalls]: the calls made for a ball. *)
Definition draw_ball (ball : Ball.t) : list DrawCmd :=
  [ BeginPath;
    Arc (Ball.x ball) (Ball.y ball) (Ball.radius ball) 0 (Math_PI * 2);
    SetFillStyle (Ball.color ball);
    Fill ].

(** [drawBalls].  The context is the list of the calls it has received so
    far, and [None] when [getContext('2d')] gives null; without a canvas
    or without a context nothing is drawn. *)
Definition drawBalls (ctx : option (list DrawCmd)) (app : App)
  : option (list DrawCmd) :=
  match canvasRef app, ctx with
  | Some canvas, Some calls =>
      (* Clear canvas *)
      let calls := calls ++ [SetFillStyle (Some "#f0f0f0"%string)] in
      let calls := calls ++ [FillRect 0 0 (width canvas) (height canvas)] in
      (* Draw balls *)
      Some (foldl (λ calls ball, calls ++ draw_ball ball) calls (ballsRef app))
  | _, _ => ctx
  end.

(** What the 2D context does with the calls, as far as the code uses it:
    it keeps a fill style and a current path; assigning [undefined] to
    [fillStyle] is ignored; [fillRect] paints a rectangle in the fill
    style and leaves the path alone; [beginPath] empties the path; [arc]
    adds an arc to it; [fill] paints every arc of the path in the fill
    style. *)
Inductive Painted : Type :=
| PaintedRect (x y w h : Q) (style : string)
| PaintedArc (x y r startAngle endAngle : Q) (style : string).

Record Pen : Type := {
  fillStyle : string;
  path : list (Q * Q * Q * Q * Q)
}.

Definition paint_arc (style : string) (a : Q * Q * Q * Q * Q) : Painted :=
  let '(x, y, r, a0, a1) := a in PaintedArc x y r a0 a1 style.

Definition paint_call (st : Pen * list Painted) (c : DrawCmd)
  : Pen * list Painted :=
  let (pen, out) := st in
  match c with
  | SetFillStyle (Some v) => ({| fillStyle := v; path := path pen |}, out)
  | SetFillStyle None => (pen, out)
  | FillRect x y w h => (pen, out ++ [PaintedRect x y w h (fillStyle pen)])
  | BeginPath => ({| fillStyle := fillStyle pen; path := [] |}, out)
  | Arc x y r a0 a1 =>
      ({| fillStyle := fillStyle pen; path := path pen ++ [(x, y, r, a0, a1)] |},
       out)
  | Fill => (pen, out ++ (paint_arc (fillStyle pen) <$> path pen))
  end.

(** What a list of calls paints, from a state of the context. *)
Definition paint (pen : Pen) (calls : list DrawCmd) : Pen * list Painted :=
  foldl paint_call (pen, []) calls.

(** The disc the code means to show for a ball of colour [c]. *)
Definition disc_of (ball : Ball.t) (c : string) : Painted :=
  PaintedArc (Ball.x ball) (Ball.y ball) (Ball.radius ball) 0 (Math_PI * 2) c.

(** ** The component in the browser: frames, clicks and resizes *)

(** The component and the part of the browser it talks to: the refs and
    the state of [App], the [isPlaying] state, [animationRef.current]
    ([None] for [undefined]), the 2D context of the canvas, the callbacks
    waiting for the next frame (each with its request id and the value of
    [isPlaying] its closure [animate] was made with), the id the next
    request gets, and the random source. *)
Record Page : Type := {
  component : App;
  isPlaying : bool;
  animationRef : option Z;
  context2d : option (list DrawCmd);
  scheduled : list (Z * bool);
  next_id : Z;
  entropy : RandomSource
}.

Definition set_component (v : App) (p : Page) : Page :=
  {| component := v; isPlaying := isPlaying p; animationRef := animationRef p;
     context2d := context2d p; scheduled := scheduled p; next_id := next_id p;
     entropy := entropy p |}.
Definition set_isPlaying (v : bool) (p : Page) : Page :=
  {| component := component p; isPlaying := v; animationRef := animationRef p;
     context2d := context2d p; scheduled := scheduled p; next_id := next_id p;
     entropy := entropy p |}.
Definition set_animationRef (v : option Z) (p : Page) : Page :=
  {| component := component p; isPlaying := isPlaying p; animationRef := v;
     context2d := context2d p; scheduled := scheduled p; next_id := next_id p;
     entropy := entropy p |}.
Definition set_context2d (v : option (list DrawCmd)) (p : Page) : Page :=
  {| component := component p; isPlaying := isPlaying p;
     animationRef := animationRef p; context2d := v; scheduled := scheduled p;
     next_id := next_id p; entropy := entropy p |}.
Definition set_scheduled (v : list (Z * bool)) (p : Page) : Page :=
  {| component := component p; isPlaying := isPlaying p;
     animationRef := animationRef p; context2d := context2d p; scheduled := v;
     next_id := next_id p; entropy := entropy p |}.
Definition set_next_id (v : Z) (p : Page) : Page :=
  {| component := component p; isPlaying := isPlaying p;
     animationRef := animationRef p; context2d := context2d p;
     scheduled := scheduled p; next_id := v; entropy := entropy p |}.
Definition set_entropy (v : RandomSource) (p : Page) : Page :=
  {| component := component p; isPlaying := isPlaying p;
     animationRef := animationRef p; context2d := context2d p;
     scheduled := scheduled p; next_id := next_id p; entropy := v |}.

(** [requestAnimationFrame(animate)], for the [animate] made with
    [isPlaying = captured]: the callback waits for the next frame, and
    the request gets the next id. *)
Definition requestAnimationFrame (captured : bool) (p : Page) : Z * Page :=
  (next_id p,
   set_next_id (next_id p + 1)%Z
     (set_scheduled (scheduled p ++ [(next_id p, captured)]) p)).

(** [cancelAnimationFrame(id)]: the request of this id, if it still
    waits, is dropped. *)
Definition cancelAnimationFrame (id : Z) (p : Page) : Page :=
  set_scheduled (List.filter (λ e, negb (fst e =? id)%Z) (scheduled p)) p.

(** [if (animationRef.current)]: a number other than 0. *)
Definition truthy (r : option Z) : bool :=
  match r with
  | Some id => negb (id =? 0)%Z
  | None => false
  end.

(** [if (animationRef.current) cancelAnimationFrame(animationRef.current)]. *)
Definition cancel_current (p : Page) : Page :=
  match animationRef p with
  | Some id => if truthy (Some id) then cancelAnimationFrame id p else p
  | None => p
  end.

(** [animate], made when [isPlaying] was [captured]. *)
Definition animate (captured : bool) (p : Page) : Page :=
  if captured then
    let p := set_component (updateBalls (component p)) p in
    let p := set_context2d (drawBalls (context2d p) (component p)) p in
    let (id, p) := requestAnimationFrame captured p in
    set_animationRef (Some id) p
  else p.

(** The play/pause effect and its cleanup. *)
Definition playPause_effect (p : Page) : Page :=
  if isPlaying p then
    let (id, p) := requestAnimationFrame (isPlaying p) p in
    set_animationRef (Some id) p
  else cancel_current p.

Definition playPause_cleanup (p : Page) : Page := cancel_current p.

(** [togglePlayPause]: [setIsPlaying(!isPlaying)]. *)
Definition togglePlayPause (p : Page) : Page :=
  set_isPlaying (negb (isPlaying p)) p.

(** What React does once [isPlaying] has changed: the component renders
    again, [animate] is made anew, and the play/pause effect, which
    depends on both, is cleaned up and run again. *)
Definition rerender (p : Page) : Page :=
  playPause_effect (playPause_cleanup p).

(** The resize handler on the page: it draws from the random source. *)
Definition page_resize (parentElement : option Container) (p : Page) : Page :=
  let (app, rs) := handleResize parentElement (component p) (entropy p) in
  set_entropy rs (set_component app p).

(** Mounting: the first render has the canvas, no balls,
    [ballCount = BALL_COUNT], [isPlaying = true] and no request; then the
    two effects run in the order they are written. *)
Definition mount (canvas : Canvas) (parentElement : option Container)
    (ctx : option (list DrawCmd)) (rs : RandomSource) : Page :=
  let p := {| component := {| canvasRef := Some canvas;
                              ballsRef := [];
                              ballCount := BALL_COUNT |};
              isPlaying := true;
              animationRef := None;
              context2d := ctx;
              scheduled := [];
              next_id := 1;
              entropy := rs |} in
  playPause_effect (page_resize parentElement p).

(** Unmounting: the cleanup of the play/pause effect (the other cleanup
    removes the resize listener). *)
Definition unmount (p : Page) : Page := playPause_cleanup p.

(** What can happen to the mounted page: a click on the button, the
    browser running the waiting callback of a request id at a frame, and
    a resize of the window, with the parent element the handler finds. *)
Inductive Event : Type :=
| Click
| AnimationFrame (id : Z)
| WindowResize (parentElement : option Container).

Definition handle (p : Page) (e : Event) : Page :=
  match e with
  | Click => rerender (togglePlayPause p)
  | AnimationFrame id =>
      match List.find (λ e, (fst e =? id)%Z) (scheduled p) with
      | Some (_, captured) => animate captured (cancelAnimationFrame id p)
      | None => p
      end
  | WindowResize parentElement => page_resize parentElement p
  end.

Definition run (p : Page) (events : list Event) : Page :=
  foldl handle p events.

(** What the header shows: the ball count, and the pause icon when
    playing, the play icon otherwise. *)
Inductive Icon : Type := PauseIcon | PlayIcon.

Definition shown (p : Page) : nat * Icon :=
  (ballCount (component p), if isPlaying p then PauseIcon else PlayIcon).

(** A ball within the walls of [canvas0], moving left and down. *)
Definition ball3 : Ball.t := Ball.mk 3 14 280 (-5) 4 12 (Some "#45B7D1"%string).

(** A ball about to leave [canvas0] by its lower right corner. *)
Definition ball5 : Ball.t := Ball.mk 5 386 285 3 7 12 (Some "#FECA57"%string).

(** A ball at rest within the walls of [canvas0]. *)
Definition ball4 : Ball.t := Ball.mk 4 12 100 0 0 12 (Some "#96CEB4"%string).
Definition app4 : App :=
  {| canvasRef := Some canvas0; ballsRef := [ball3; ball4]; ballCount := 2 |}.

(** Both velocity components are zero. *)
Definition at_rest (b : Ball.t) : Prop := Ball.vx b == 0 ∧ Ball.vy b == 0.

(** An application whose canvas is narrower and lower than a ball. *)
Definition app_fresh_narrow : App :=
  {| canvasRef := Some narrow; ballsRef := []; ballCount := 0 |}.

(** A container with room for the balls. *)
Definition container0 : Container := {| clientWidth := 640; clientHeight := 480 |}.

(** The container is there and at least two ball radii wide and high. *)
Definition roomy (parentElement : option Container) : Prop :=
  ∃ container : Container,
    parentElement = Some container ∧
    2 * BALL_RADIUS <= clientWidth container ∧
    2 * BALL_RADIUS <= clientHeight container.

(** A state of the 2D context: black fill style, one arc in the path. *)
Definition pen0 : Pen :=
  {| fillStyle := "#000000"%string; path := [(1, 2, 3, 0, 1)] |}.

(** The requests of the page are in order: while playing, exactly one
    callback waits, it was made while playing, and [animationRef] holds
    its id; while paused, none waits. *)
Definition sched_ok (p : Page) : Prop :=
  (0 < next_id p)%Z ∧
  if isPlaying p
  then ∃ id : Z,
         scheduled p = [(id, true)] ∧ animationRef p = Some id ∧
         (0 < id < next_id p)%Z
  else scheduled p = [].

(** The component has its canvas and [BALL_COUNT] balls, and shows that
    count. *)
Definition count_ok (app : App) : Prop :=
  is_Some (canvasRef app) ∧
  length (ballsRef app) = BALL_COUNT ∧
  ballCount app = BALL_COUNT.

(** A ball as initialization makes them and steps keep them: of radius
    [BALL_RADIUS], within the walls, no faster than half the speed
    multiplier along an axis, of a colour of the palette. *)
Definition ball_ok (canvas : Canvas) (b : Ball.t) : Prop :=
  Ball.radius b = BALL_RADIUS ∧
  in_bounds canvas b ∧
  Qabs (Ball.vx b) <= SPEED_MULTIPLIER / 2 ∧
  Qabs (Ball.vy b) <= SPEED_MULTIPLIER / 2 ∧
  ∃ c : string, Ball.color b = Some c ∧ c ∈ colors.

Definition balls_ok (app : App) : Prop :=
  ∃ canvas : Canvas,
    canvasRef app = Some canvas ∧
    ∀ b : Ball.t, b ∈ ballsRef app → ball_ok canvas b.

(** A resize finds a container with room for the balls. *)
Definition roomy_event (e : Event) : Prop :=
  match e with
  | WindowResize parentElement => roomy parentElement
  | _ => True
  end.

(** A mounted page and a run of events on it. *)
Definition page0 : Page := mount canvas0 (Some container0) (Some []) draws_alt.
Definition events0 : list Event :=
  [ AnimationFrame 1; AnimationFrame 2; Click; AnimationFrame 3;
    WindowResize (Some container0); Click; AnimationFrame 4 ].

(** ** The simulation step on doubles *)

(** The step of [updateBalls] once more, on the numbers the code has:
    binary64 floats with their rounded [+] and [-], their comparisons
    (false on [NaN]) and their sign change. *)
Module Double.

Record Ball : Type := mkBall {
  id : Z;
  x : float;
  y : float;
  vx : float;
  vy : float;
  radius : float;
  color : option string
}.

Definition set_x (v : float) (b : Ball) : Ball :=
  mkBall (id b) v (y b) (vx b) (vy b) (radius b) (color b).
Definition set_y (v : float) (b : Ball) : Ball :=
  mkBall (id b) (x b) v (vx b) (vy b) (radius b) (color b).
Definition set_vx (v : float) (b : Ball) : Ball :=
  mkBall (id b) (x b) (y b) v (vy b) (radius b) (color b).
Definition set_vy (v : float) (b : Ball) : Ball :=
  mkBall (id b) (x b) (y b) (vx b) v (radius b) (color b).

Record Canvas : Type := { width : float; height : float }.

Definition is_pos_zero (a : float) : bool :=
  PrimFloat.is_zero a && negb (PrimFloat.get_sign a).
Definition is_neg_zero (a : float) : bool :=
  PrimFloat.is_zero a && PrimFloat.get_sign a.

(** [Math.max(a, b)]: [NaN] when an argument is; [+0] is larger than
    [-0]; otherwise [b] when it is larger than [a], else [a]. *)
Definition Math_max (a b : float) : float :=
  if PrimFloat.is_nan a || PrimFloat.is_nan b then PrimFloat.nan
  else if is_neg_zero a && is_pos_zero b then b
  else if (a <? b)%float then b
  else a.

(** [Math.min(a, b)]: [NaN] when an argument is; [-0] is smaller than
    [+0]; otherwise [b] when it is smaller than [a], else [a]. *)
Definition Math_min (a b : float) : float :=
  if PrimFloat.is_nan a || PrimFloat.is_nan b then PrimFloat.nan
  else if is_pos_zero a && is_neg_zero b then b
  else if (b <? a)%float then b
  else a.

(** [arr.forEach(f)] with a callback that mutates the visited object. *)
Fixpoint forEach_from (n i : nat) (f : Ball → Ball) (arr : list Ball)
  : list Ball :=
  match n with
  | O => arr
  | S n' =>
      match arr !! i with
      | Some b => forEach_from n' (S i) f (<[i := f b]> arr)
      | None => forEach_from n' (S i) f arr
      end
  end.

Definition forEach (f : Ball → Ball) (arr : list Ball) : list Ball :=
  forEach_from (length arr) 0 f arr.

(** The body of the callback of [updateBalls]. *)
Definition update_ball (canvas : Canvas) (ball : Ball) : Ball :=
  (* Update position *)
  let ball := set_x (x ball + vx ball)%float ball in
  let ball := set_y (y ball + vy ball)%float ball in
  (* Bounce off walls *)
  let ball :=
    if (x ball <=? radius ball)%float
       || (width canvas - radius ball <=? x ball)%float
    then
      let ball := set_vx (- vx ball)%float ball in
      set_x (Math_max (radius ball)
               (Math_min (width canvas - radius ball)%float (x ball)))
        ball
    else ball in
  let ball :=
    if (y ball <=? radius ball)%float
       || (height canvas - radius ball <=? y ball)%float
    then
      let ball := set_vy (- vy ball)%float ball in
      set_y (Math_max (radius ball)
               (Math_min (height canvas - radius ball)%float (y ball)))
        ball
    else ball in
  ball.

(** [updateBalls], given [canvasRef.current] and [ballsRef.current]. *)
Definition updateBalls (canvas : option Canvas) (balls : list Ball)
  : list Ball :=
  match canvas with
  | None => balls
  | Some canvas => forEach (update_ball canvas) balls
  end.

End Double.

(** A 400 by 300 canvas and three balls of radius 12 on doubles: one far
    from the walls with a velocity too small to change [x = 106]; one on
    the left wall with the same velocity; one near the left wall moving
    right. *)
Definition dcanvas : Double.Canvas :=
  {| Double.width := 400; Double.height := 300 |}.
Definition dball_far : Double.Ball :=
  Double.mkBall 0 106 150 0x1p-51 2 12 (Some "#FF6B6B"%string).
Definition dball_wall : Double.Ball :=
  Double.mkBall 1 12 150 0x1p-51 0 12 (Some "#4ECDC4"%string).
Definition dball_near : Double.Ball :=
  Double.mkBall 2 13 150 0.5 (-0.25) 12 (Some "#45B7D1"%string).

(** * Properties *)

(** ** [forEach] with a mutating callback is a map *)

Lemma forEach_from_split (f : Ball.t → Ball.t) (todo done : list Ball.t) :
  forEach_from (length todo) (length done) f (done ++ todo)
  = done ++ (f <$> todo).
Proof.
  revert done; induction todo as [|b todo IH]; intros done; simpl.
  - reflexivity.
  - rewrite list_lookup_middle by reflexivity.
    rewrite insert_app_r_alt by reflexivity.
    rewrite Nat.sub_diag. simpl.
    specialize (IH (done ++ [f b])).
    rewrite length_app, Nat.add_1_r, <- !app_assoc in IH.
    exact IH.
Qed.

Lemma forEach_fmap (f : Ball.t → Ball.t) (arr : list Ball.t) :
  forEach f arr = f <$> arr.
Proof. exact (forEach_from_split f arr []). Qed.

(** ** Comparisons, [Math.max] and [Math.min] *)

Lemma js_le_true (a b : Q) : js_le a b = true ↔ a <= b.
Proof. apply Qle_bool_iff. Qed.

Lemma js_le_false (a b : Q) : js_le a b = false ↔ b < a.
Proof.
  unfold js_le. split.
  - intros H. apply Qnot_le_lt. intros Hle.
    apply Qle_bool_iff in Hle. congruence.
  - intros H. destruct (Qle_bool a b) eqn:E; [|reflexivity].
    apply Qle_bool_iff in E. lra.
Qed.

(** Whether a position [p] is at or beyond a wall, as the step tests it. *)
Lemma hits_wall_true (p r lim : Q) :
  js_le p r || js_ge p (lim - r) = true ↔ p <= r ∨ lim - r <= p.
Proof.
  rewrite orb_true_iff. unfold js_ge. fold (js_le (lim - r) p).
  rewrite !js_le_true. reflexivity.
Qed.

Lemma hits_wall_false (p r lim : Q) :
  js_le p r || js_ge p (lim - r) = false ↔ r < p ∧ p < lim - r.
Proof.
  rewrite orb_false_iff. unfold js_ge. fold (js_le (lim - r) p).
  rewrite !js_le_false. reflexivity.
Qed.

(** [Math.max(lo, Math.min(hi, p))] with [lo <= hi] is the clamp. *)
Lemma max_min_clamped (lo hi p : Q) :
  lo <= hi → clamped lo hi p (Math_max lo (Math_min hi p)).
Proof.
  intros Hlh. unfold clamped, Math_max, Math_min.
  destruct (Q.min_spec hi p) as [[H1 E1]|[H1 E1]];
    destruct (Q.max_spec lo (Qmin hi p)) as [[H2 E2]|[H2 E2]];
    rewrite E2, ?E1 in *; repeat split; intros; lra.
Qed.

(** A position at or left of [lo] is sent to [lo] itself, whatever [hi]. *)
Lemma max_min_low (lo hi p : Q) :
  p <= lo → Math_max lo (Math_min hi p) = lo.
Proof.
  intros Hp. unfold Math_max, Qmax, GenericMinMax.gmax.
  destruct (Qcompare_spec lo (Math_min hi p)) as [E|E|E]; try reflexivity.
  exfalso. pose proof (Q.le_min_r hi p). unfold Math_min in E. lra.
Qed.

(** With [hi < lo] there is no interval and every position is sent to [lo]. *)
Lemma max_min_degenerate (lo hi p : Q) :
  hi < lo → Math_max lo (Math_min hi p) = lo.
Proof.
  intros Hp. unfold Math_max, Qmax, GenericMinMax.gmax.
  destruct (Qcompare_spec lo (Math_min hi p)) as [E|E|E]; try reflexivity.
  exfalso. pose proof (Q.le_min_l hi p). unfold Math_min in E. lra.
Qed.

(** ** The step, field by field *)

(** Runs the assignments of [update_ball] on a ball given by its fields
    and splits on the two wall tests. *)
Ltac step_cases canvas b :=
  let i := fresh "i" in
  let px := fresh "px" in let py := fresh "py" in
  let pvx := fresh "pvx" in let pvy := fresh "pvy" in
  let r := fresh "r" in let c := fresh "c" in
  destruct b as [i px py pvx pvy r c];
  cbv beta iota zeta delta
    [update_ball spec_step spec_axis js_le js_ge Math_max Math_min
     Ball.set_x Ball.set_y Ball.set_vx Ball.set_vy
     Ball.id Ball.x Ball.y Ball.vx Ball.vy Ball.radius Ball.color];
  destruct (Qle_bool (px + pvx) r || Qle_bool (width canvas - r) (px + pvx));
  destruct (Qle_bool (py + pvy) r || Qle_bool (height canvas - r) (py + pvy)).

Lemma update_ball_spec_step (canvas : Canvas) (b : Ball.t) :
  update_ball canvas b = spec_step canvas b.
Proof.
  step_cases canvas b; reflexivity.
Qed.

Lemma updateBalls_canvas (app : App) (canvas : Canvas) :
  canvasRef app = Some canvas →
  ballsRef (updateBalls app) = update_ball canvas <$> ballsRef app.
Proof.
  intros Hc. unfold updateBalls. rewrite Hc. simpl. apply forEach_fmap.
Qed.

Lemma updateBalls_no_canvas (app : App) :
  canvasRef app = None → updateBalls app = app.
Proof. intros Hc. unfold updateBalls. rewrite Hc. reflexivity. Qed.

Lemma updateBalls_canvasRef (app : App) :
  canvasRef (updateBalls app) = canvasRef app.
Proof. unfold updateBalls. destruct (canvasRef app) eqn:E; [reflexivity|exact E]. Qed.

Lemma steps_canvas (n : nat) (app : App) :
  canvasRef (steps n app) = canvasRef app.
Proof.
  induction n as [|n IH]; [reflexivity|].
  unfold steps in *. simpl. rewrite updateBalls_canvasRef. exact IH.
Qed.

Lemma updateBalls_lookup (app : App) (canvas : Canvas) (i : nat) :
  canvasRef app = Some canvas →
  ballsRef (updateBalls app) !! i = update_ball canvas <$> (ballsRef app !! i).
Proof.
  intros Hc. rewrite (updateBalls_canvas app canvas Hc).
  apply list_lookup_fmap.
Qed.

(** One axis of the step on the fields of the ball. *)
Lemma update_ball_x (canvas : Canvas) (b : Ball.t) :
  let p := Ball.x b + Ball.vx b in
  (Ball.x (update_ball canvas b), Ball.vx (update_ball canvas b))
  = if js_le p (Ball.radius b) || js_ge p (width canvas - Ball.radius b)
    then (Math_max (Ball.radius b) (Math_min (width canvas - Ball.radius b) p),
          - Ball.vx b)
    else (p, Ball.vx b).
Proof.
  step_cases canvas b; reflexivity.
Qed.

Lemma update_ball_y (canvas : Canvas) (b : Ball.t) :
  let p := Ball.y b + Ball.vy b in
  (Ball.y (update_ball canvas b), Ball.vy (update_ball canvas b))
  = if js_le p (Ball.radius b) || js_ge p (height canvas - Ball.radius b)
    then (Math_max (Ball.radius b) (Math_min (height canvas - Ball.radius b) p),
          - Ball.vy b)
    else (p, Ball.vy b).
Proof.
  step_cases canvas b; reflexivity.
Qed.

Lemma update_ball_frame (canvas : Canvas) (b : Ball.t) :
  Ball.id (update_ball canvas b) = Ball.id b ∧
  Ball.radius (update_ball canvas b) = Ball.radius b ∧
  Ball.color (update_ball canvas b) = Ball.color b.
Proof.
  step_cases canvas b; repeat split.
Qed.

Lemma Qabs_opp_eq (v : Q) : Qabs (- v) = Qabs v.
Proof. destruct v as [n d]. simpl. rewrite Z.abs_opp. reflexivity. Qed.

Lemma update_ball_speed (canvas : Canvas) (b : Ball.t) :
  Qabs (Ball.vx (update_ball canvas b)) = Qabs (Ball.vx b) ∧
  Qabs (Ball.vy (update_ball canvas b)) = Qabs (Ball.vy b).
Proof.
  step_cases canvas b; rewrite ?Qabs_opp_eq; split; reflexivity.
Qed.

(** The specification's axis rule, case by case. *)
Lemma spec_axis_hit (p v r lim : Q) :
  p + v <= r ∨ lim - r <= p + v →
  spec_axis p v r lim = (Qmax r (Qmin (lim - r) (p + v)), - v).
Proof.
  intros H. apply (hits_wall_true (p + v) r lim) in H.
  unfold spec_axis. unfold js_le, js_ge in H. rewrite H. reflexivity.
Qed.


(** ** The claims on the simulation step *)



(** C2.  After every step with a canvas at least two radii wide and
    high, the first one and each one after it, every particle is within
    the walls: [radius <= x <= width - radius] and
    [radius <= y <= height - radius], whatever its position and velocity
    were before the step. *)
Theorem updateBalls_in_bounds (app : App) (canvas : Canvas) (n : nat)
    (b' : Ball.t) :
  canvasRef app = Some canvas →
  b' ∈ ballsRef (updateBalls (steps n app)) →
  2 * Ball.radius b' <= width canvas →
  2 * Ball.radius b' <= height canvas →
  in_bounds canvas b'.
Proof.
  intros Hc Hin Hw Hh.
  rewrite <- (steps_canvas n app) in Hc.
  rewrite (updateBalls_canvas _ canvas Hc) in Hin.
  apply list_elem_of_fmap in Hin as (b & -> & _).
  destruct (update_ball_frame canvas b) as (_ & Hr & _).
  rewrite Hr in *. unfold in_bounds. rewrite Hr.
  pose proof (update_ball_x canvas b) as Hx.
  pose proof (update_ball_y canvas b) as Hy.
  cbv zeta in Hx, Hy.
  set (r := Ball.radius b) in *.
  split.
  - destruct (js_le _ r || js_ge _ (width canvas - r)) eqn:E in Hx;
      injection Hx as Hx _; rewrite Hx.
    + destruct (max_min_clamped r (width canvas - r)
                  (Ball.x b + Ball.vx b)) as (? & ? & _); [lra|auto].
    + apply hits_wall_false in E. lra.
  - destruct (js_le _ r || js_ge _ (height canvas - r)) eqn:E in Hy;
      injection Hy as Hy _; rewrite Hy.
    + destruct (max_min_clamped r (height canvas - r)
                  (Ball.y b + Ball.vy b)) as (? & ? & _); [lra|auto].
    + apply hits_wall_false in E. lra.
Qed.

Lemma updateBalls_in_bounds_witness :
  in_bounds canvas0 (Ball.mk 0 12 150 3 0 12 (Some "#FF6B6B"%string)).
Proof.
  apply (updateBalls_in_bounds app0 canvas0 0 _ eq_refl).
  - vm_compute. left.
  - vm_compute. discriminate.
  - vm_compute. discriminate.
Defined.

(** C3, as stated, fails: a particle strictly inside the walls before the
    step can reach a wall during it.  In a 400 by 300 canvas the particle
    of radius 12 at (13, 150) with velocity (-3, 0) ends at x = 12, not
    at 13 + (-3) = 10, with velocity 3, not -3. *)
Lemma interior_before_step_reflected :
  strictly_interior canvas0 (Ball.radius ball1) (Ball.x ball1) (Ball.y ball1) ∧
  ballsRef (updateBalls app1)
  = [Ball.mk 1 12 150 3 0 12 (Some "#4ECDC4"%string)] ∧
  ¬ (12 == Ball.x ball1 + Ball.vx ball1) ∧
  ¬ (3 == Ball.vx ball1).
Proof.
  split; [|split; [|split]].
  - vm_compute. repeat split.
  - reflexivity.
  - vm_compute. discriminate.
  - vm_compute. discriminate.
Qed.

(** *** The step on doubles *)

Lemma Double_forEach_from_split (f : Double.Ball → Double.Ball)
    (todo done : list Double.Ball) :
  Double.forEach_from (length todo) (length done) f (done ++ todo)
  = done ++ (f <$> todo).
Proof.
  revert done; induction todo as [|b todo IH]; intros done; simpl.
  - reflexivity.
  - rewrite list_lookup_middle by reflexivity.
    rewrite insert_app_r_alt by reflexivity.
    rewrite Nat.sub_diag. simpl.
    specialize (IH (done ++ [f b])).
    rewrite length_app, Nat.add_1_r, <- !app_assoc in IH.
    exact IH.
Qed.

Lemma Double_updateBalls_lookup (canvas : Double.Canvas)
    (balls : list Double.Ball) (i : nat) :
  Double.updateBalls (Some canvas) balls !! i
  = Double.update_ball canvas <$> (balls !! i).
Proof.
  unfold Double.updateBalls, Double.forEach.
  pose proof (Double_forEach_from_split (Double.update_ball canvas) balls [])
    as E.
  simpl in E. rewrite E. apply list_lookup_fmap.
Qed.

(** The order of the doubles, as far as the wall tests need it: what is
    less is not greater, on the specification of the comparisons. *)
Lemma SFcompare_Lt_swap (a b : spec_float) :
  SFcompare a b = Some Lt → SFcompare b a = Some Gt.
Proof.
  destruct a as [sa|sa| |sa ma ea], b as [sb|sb| |sb mb eb];
    try destruct sa; try destruct sb; cbn [SFcompare]; try congruence;
    fold (Pos.compare ma mb); fold (Pos.compare mb ma);
    rewrite (Z.compare_antisym ea eb), (Pos.compare_antisym ma mb);
    destruct (ea ?= eb)%Z; cbn [CompOpp]; try congruence;
    destruct (ma ?= mb)%positive; cbn [CompOpp]; congruence.
Qed.

(** [a < b] on doubles makes [b <= a] false. *)
Lemma double_lt_not_ge (a b : float) :
  (a <? b)%float = true → (b <=? a)%float = false.
Proof.
  rewrite FloatAxioms.ltb_spec, FloatAxioms.leb_spec. unfold SFltb, SFleb.
  destruct (SFcompare (Prim2SF a) (Prim2SF b)) as [[]|] eqn:E;
    try discriminate.
  intros _. rewrite (SFcompare_Lt_swap _ _ E). reflexivity.
Qed.

(** The step on doubles at three balls of a 400 by 300 canvas: at
    [x = 106] the increment [2^-51] is lost in the rounding of the sum
    and the ball stays at 106; at [x = 12], on the left wall, the same
    increment is lost, the wall test holds and the velocity is negated;
    at [x = 13] the sum 13.5 is exact. *)
Lemma double_step_examples :
  Double.updateBalls (Some dcanvas) [dball_far; dball_wall; dball_near]
  = [ Double.mkBall 0 106 152 0x1p-51 2 12 (Some "#FF6B6B"%string);
      Double.mkBall 1 12 150 (-0x1p-51) 0 12 (Some "#4ECDC4"%string);
      Double.mkBall 2 13.5 149.75 0.5 (-0.25) 12 (Some "#45B7D1"%string) ].
Proof. vm_compute. reflexivity. Qed.

(** C3, amended.  On the doubles of the code: a particle whose position
    after the increment, as the code computes it (the rounded sums
    [x + vx] and [y + vy]), is strictly inside the walls
    ([radius < x + vx < width - radius] and
    [radius < y + vy < height - radius], the differences as computed
    too), ends the step at exactly that computed position, with its
    velocity and every other field unchanged. *)
Theorem computed_interior_position_kept (canvas : Double.Canvas)
    (balls : list Double.Ball) (i : nat) (b : Double.Ball) :
  balls !! i = Some b →
  (Double.radius b <? Double.x b + Double.vx b)%float = true →
  (Double.x b + Double.vx b <? Double.width canvas - Double.radius b)%float
  = true →
  (Double.radius b <? Double.y b + Double.vy b)%float = true →
  (Double.y b + Double.vy b <? Double.height canvas - Double.radius b)%float
  = true →
  Double.updateBalls (Some canvas) balls !! i
  = Some (Double.mkBall (Double.id b)
            (Double.x b + Double.vx b)%float (Double.y b + Double.vy b)%float
            (Double.vx b) (Double.vy b) (Double.radius b) (Double.color b)).
Proof.
  intros Hb Hx1 Hx2 Hy1 Hy2.
  rewrite Double_updateBalls_lookup, Hb. simpl. f_equal.
  apply double_lt_not_ge in Hx1, Hx2, Hy1, Hy2.
  destruct b as [i0 px py pvx pvy r c].
  cbv beta iota zeta delta
    [Double.update_ball Double.set_x Double.set_y Double.set_vx Double.set_vy
     Double.id Double.x Double.y Double.vx Double.vy Double.radius
     Double.color] in *.
  rewrite Hx1, Hx2. cbv beta iota delta [orb Double.y Double.radius].
  rewrite Hy1, Hy2. reflexivity.
Qed.

Lemma computed_interior_position_kept_witness :
  Double.updateBalls (Some dcanvas) [dball_far; dball_wall; dball_near] !! 0%nat
  = Some (Double.mkBall 0 106 152 0x1p-51 2 12 (Some "#FF6B6B"%string)).
Proof.
  apply (computed_interior_position_kept dcanvas
           [dball_far; dball_wall; dball_near] 0 dball_far eq_refl);
    vm_compute; reflexivity.
Defined.

(** C4.  A particle whose x position after the increment is at or left
    of the left wall ([x + vx <= radius]), moving left ([vx < 0]) and
    with y strictly inside the walls, ends the step with [vx] negated
    and [x = radius].  In particular, in a 400 by 300 canvas the particle
    of radius 12 at (5, 150) with velocity (-3, 0) ends the step with
    [x = 12] and [vx = 3]. *)
Theorem left_wall_reflects :
  (∀ (app : App) (canvas : Canvas) (i : nat) (b : Ball.t),
     canvasRef app = Some canvas →
     ballsRef app !! i = Some b →
     Ball.x b + Ball.vx b <= Ball.radius b →
     Ball.vx b < 0 →
     Ball.radius b < Ball.y b ∧ Ball.y b < height canvas - Ball.radius b →
     ∃ b' : Ball.t,
       ballsRef (updateBalls app) !! i = Some b' ∧
       Ball.vx b' = - Ball.vx b ∧ Ball.x b' = Ball.radius b) ∧
  (∀ (k : Z) (c : option string),
     let b' := update_ball {| width := 400; height := 300 |}
                 (Ball.mk k 5 150 (-3) 0 12 c) in
     Ball.x b' = 12 ∧ Ball.vx b' = 3).
Proof.
  split.
  - intros app canvas i b Hc Hb Hx _ _.
    exists (update_ball canvas b). split.
    + rewrite (updateBalls_lookup app canvas i Hc), Hb. reflexivity.
    + pose proof (update_ball_x canvas b) as E. cbv zeta in E.
      assert (Hhit : js_le (Ball.x b + Ball.vx b) (Ball.radius b)
                     || js_ge (Ball.x b + Ball.vx b)
                          (width canvas - Ball.radius b) = true)
        by (apply hits_wall_true; left; exact Hx).
      rewrite Hhit in E. injection E as Ex Ev.
      rewrite Ex, Ev. split; [reflexivity|].
      apply max_min_low, Hx.
  - intros k c. split; reflexivity.
Qed.

Lemma left_wall_reflects_witness :
  ∃ b' : Ball.t,
    ballsRef (updateBalls app0) !! 0%nat = Some b' ∧
    Ball.vx b' = - Ball.vx ball0 ∧ Ball.x b' = Ball.radius ball0.
Proof.
  apply (proj1 left_wall_reflects app0 canvas0 0%nat ball0 eq_refl eq_refl).
  - vm_compute. discriminate.
  - reflexivity.
  - split; reflexivity.
Defined.

(** C7.  The step with a canvas always completes, particle for particle.
    When the width is less than two radii, a particle that takes the
    x-wall branch (and every particle does) ends at the single point
    [x = radius], the same for all particles of that radius; likewise for
    the height and y. *)
Theorem narrow_canvas_single_point (app : App) (canvas : Canvas) :
  canvasRef app = Some canvas →
  length (ballsRef (updateBalls app)) = length (ballsRef app) ∧
  ∀ (i : nat) (b : Ball.t),
    ballsRef app !! i = Some b →
    ∃ b' : Ball.t,
      ballsRef (updateBalls app) !! i = Some b' ∧
      (width canvas < 2 * Ball.radius b →
         (Ball.x b + Ball.vx b <= Ball.radius b ∨
          width canvas - Ball.radius b <= Ball.x b + Ball.vx b) ∧
         (Ball.x b + Ball.vx b <= Ball.radius b ∨
          width canvas - Ball.radius b <= Ball.x b + Ball.vx b →
          Ball.x b' = Ball.radius b)) ∧
      (height canvas < 2 * Ball.radius b →
         (Ball.y b + Ball.vy b <= Ball.radius b ∨
          height canvas - Ball.radius b <= Ball.y b + Ball.vy b) ∧
         (Ball.y b + Ball.vy b <= Ball.radius b ∨
          height canvas - Ball.radius b <= Ball.y b + Ball.vy b →
          Ball.y b' = Ball.radius b)).
Proof.
  intros Hc. split.
  - rewrite (updateBalls_canvas app canvas Hc). apply length_fmap.
  - intros i b Hb. exists (update_ball canvas b). split; [|split].
    + rewrite (updateBalls_lookup app canvas i Hc), Hb. reflexivity.
    + intros Hw. split; [lra|]. intros Hhit.
      pose proof (update_ball_x canvas b) as E. cbv zeta in E.
      apply hits_wall_true in Hhit. rewrite Hhit in E.
      injection E as Ex _. rewrite Ex.
      apply max_min_degenerate. lra.
    + intros Hh. split; [lra|]. intros Hhit.
      pose proof (update_ball_y canvas b) as E. cbv zeta in E.
      apply hits_wall_true in Hhit. rewrite Hhit in E.
      injection E as Ey _. rewrite Ey.
      apply max_min_degenerate. lra.
Qed.

Lemma narrow_canvas_single_point_witness :
  ∃ b' : Ball.t,
    ballsRef (updateBalls app_narrow) !! 1%nat = Some b' ∧
    Ball.x b' = 12 ∧ Ball.y b' = 12.
Proof.
  destruct (narrow_canvas_single_point app_narrow narrow eq_refl) as [_ H].
  destruct (H 1%nat ball1 eq_refl) as (b' & Hb' & Hx & Hy).
  exists b'. split; [exact Hb'|]. split.
  - apply Hx; [reflexivity|]. right. vm_compute. discriminate.
  - apply Hy; [reflexivity|]. right. vm_compute. discriminate.
Defined.

(** C8.  A step leaves the id, the radius and the colour of every
    particle as they were, with or without a canvas. *)
Theorem updateBalls_frame (app : App) :
  Ball.id <$> ballsRef (updateBalls app) = Ball.id <$> ballsRef app ∧
  Ball.radius <$> ballsRef (updateBalls app) = Ball.radius <$> ballsRef app ∧
  Ball.color <$> ballsRef (updateBalls app) = Ball.color <$> ballsRef app.
Proof.
  destruct (canvasRef app) as [canvas|] eqn:Hc.
  - rewrite (updateBalls_canvas app canvas Hc), <- !list_fmap_compose.
    repeat split; apply list_fmap_ext; intros i b _; simpl;
      apply (update_ball_frame canvas b).
  - rewrite (updateBalls_no_canvas app Hc). repeat split.
Qed.

(** C9.  A step preserves the absolute value of each velocity component
    of every particle: [|vx'| = |vx|] and [|vy'| = |vy|]. *)
Theorem updateBalls_speed (app : App) :
  (λ b, Qabs (Ball.vx b)) <$> ballsRef (updateBalls app)
  = (λ b, Qabs (Ball.vx b)) <$> ballsRef app ∧
  (λ b, Qabs (Ball.vy b)) <$> ballsRef (updateBalls app)
  = (λ b, Qabs (Ball.vy b)) <$> ballsRef app.
Proof.
  destruct (canvasRef app) as [canvas|] eqn:Hc.
  - rewrite (updateBalls_canvas app canvas Hc), <- !list_fmap_compose.
    split; apply list_fmap_ext; intros i b _; simpl;
      apply (update_ball_speed canvas b).
  - rewrite (updateBalls_no_canvas app Hc). split; reflexivity.
Qed.

(** ** Initialization *)

Lemma new_ball_draws (canvas : Canvas) (i : Z) (rs : RandomSource) :
  new_ball canvas i rs
  = (ball_of_draws canvas i (rs 0%nat) (rs 1%nat) (rs 2%nat) (rs 3%nat) (rs 4%nat),
     advance 5 rs).
Proof. reflexivity. Qed.

(** The array after [n] rounds: the balls it held, then one new ball per
    round, round [j] using the draws [5 j .. 5 j + 4]. *)
Lemma push_balls_spec (canvas : Canvas) (n : nat) :
  ∀ (i : Z) (balls : list Ball.t) (rs : RandomSource),
    let out := fst (push_balls canvas n i balls rs) in
    length out = (length balls + n)%nat ∧
    (∀ k : nat, (k < length balls)%nat → out !! k = balls !! k) ∧
    (∀ j : nat, (j < n)%nat →
       out !! (length balls + j)%nat
       = Some (ball_of_draws canvas (i + Z.of_nat j)
                 (rs (5 * j)%nat) (rs (5 * j + 1)%nat) (rs (5 * j + 2)%nat)
                 (rs (5 * j + 3)%nat) (rs (5 * j + 4)%nat))).
Proof.
  induction n as [|n IH]; intros i balls rs out.
  - subst out. simpl. split; [lia|]. split; [reflexivity|]. intros j Hj. lia.
  - assert (E : out = fst (push_balls canvas n (i + 1)%Z
                             (balls ++ [fst (new_ball canvas i rs)])
                             (advance 5 rs))) by reflexivity.
    destruct (IH (i + 1)%Z (balls ++ [fst (new_ball canvas i rs)])
                (advance 5 rs)) as (Hlen & Hold & Hnew).
    rewrite <- E in Hlen, Hold, Hnew. clear E IH.
    rewrite length_app in Hlen, Hold, Hnew. simpl length in *.
    split; [lia|]. split.
    + intros k Hk. rewrite Hold by lia. apply lookup_app_l. exact Hk.
    + intros [|j] Hj.
      * rewrite Nat.add_0_r, Hold by lia.
        rewrite list_lookup_middle by reflexivity.
        rewrite new_ball_draws. simpl fst.
        change (Z.of_nat 0) with 0%Z. rewrite Z.add_0_r. reflexivity.
      * replace (length balls + S j)%nat with (length balls + 1 + j)%nat by lia.
        rewrite Hnew by lia. unfold advance.
        replace (i + 1 + Z.of_nat j)%Z with (i + Z.of_nat (S j))%Z by lia.
        replace (5 + 5 * j)%nat with (5 * S j)%nat by lia.
        replace (5 + (5 * j + 1))%nat with (5 * S j + 1)%nat by lia.
        replace (5 + (5 * j + 2))%nat with (5 * S j + 2)%nat by lia.
        replace (5 + (5 * j + 3))%nat with (5 * S j + 3)%nat by lia.
        replace (5 + (5 * j + 4))%nat with (5 * S j + 4)%nat by lia.
        reflexivity.
Qed.

Lemma initializeBalls_canvas (app : App) (canvas : Canvas) (rs : RandomSource) :
  canvasRef app = Some canvas →
  ballsRef (fst (initializeBalls app rs))
  = fst (push_balls canvas BALL_COUNT 0 [] rs) ∧
  ballCount (fst (initializeBalls app rs))
  = length (fst (push_balls canvas BALL_COUNT 0 [] rs)).
Proof.
  intros Hc. unfold initializeBalls. rewrite Hc. unfold bind, ret.
  destruct (push_balls canvas BALL_COUNT 0 [] rs) as [balls rs'].
  split; reflexivity.
Qed.

Lemma initializeBalls_no_canvas (app : App) (rs : RandomSource) :
  canvasRef app = None → initializeBalls app rs = (app, rs).
Proof. intros Hc. unfold initializeBalls. rewrite Hc. reflexivity. Qed.

(** The balls of a fresh array, by index. *)
Lemma initializeBalls_lookup (app : App) (canvas : Canvas) (rs : RandomSource)
    (j : nat) :
  canvasRef app = Some canvas →
  ballsRef (fst (initializeBalls app rs)) !! j
  = if decide (j < BALL_COUNT)%nat
    then Some (ball_of_draws canvas (Z.of_nat j)
                 (rs (5 * j)%nat) (rs (5 * j + 1)%nat) (rs (5 * j + 2)%nat)
                 (rs (5 * j + 3)%nat) (rs (5 * j + 4)%nat))
    else None.
Proof.
  intros Hc. destruct (initializeBalls_canvas app canvas rs Hc) as [-> _].
  pose proof (push_balls_spec canvas BALL_COUNT 0 [] rs) as H.
  cbv zeta in H. change (length (@nil Ball.t)) with 0%nat in H.
  destruct H as (Hlen & _ & Hnew).
  destruct (decide (j < BALL_COUNT)%nat) as [Hj|Hj].
  - specialize (Hnew j Hj). rewrite Z.add_0_l in Hnew. exact Hnew.
  - apply lookup_ge_None. lia.
Qed.

Lemma draws_alt_unit : unit_draws draws_alt.
Proof.
  intros n. unfold draws_alt. destruct (Nat.even n); split; reflexivity || discriminate.
Qed.

Lemma draws_half_unit : unit_draws draws_half.
Proof.
  intros n. unfold draws_half. destruct (n =? 2)%nat; split; reflexivity || discriminate.
Qed.

(** Every ball of a fresh array is built from five consecutive draws. *)
Lemma initializeBalls_elem (app : App) (canvas : Canvas) (rs : RandomSource)
    (b : Ball.t) :
  canvasRef app = Some canvas →
  b ∈ ballsRef (fst (initializeBalls app rs)) →
  ∃ j : nat,
    (j < BALL_COUNT)%nat ∧
    b = ball_of_draws canvas (Z.of_nat j)
          (rs (5 * j)%nat) (rs (5 * j + 1)%nat) (rs (5 * j + 2)%nat)
          (rs (5 * j + 3)%nat) (rs (5 * j + 4)%nat).
Proof.
  intros Hc Hin. apply list_elem_of_lookup in Hin as [j Hj].
  rewrite (initializeBalls_lookup app canvas rs j Hc) in Hj.
  exists j. destruct (decide (j < BALL_COUNT)%nat) as [Hlt|]; [|discriminate].
  split; [exact Hlt|]. congruence.
Qed.

(** A position drawn as [r * (lim - 2 radius) + radius] is within the
    walls. *)
Lemma drawn_position_in_bounds (r lim : Q) :
  0 <= r → r < 1 → 2 * BALL_RADIUS <= lim →
  BALL_RADIUS <= r * (lim - BALL_RADIUS * 2) + BALL_RADIUS ∧
  r * (lim - BALL_RADIUS * 2) + BALL_RADIUS <= lim - BALL_RADIUS.
Proof.
  unfold BALL_RADIUS. intros H0 H1 Hl. split; nra.
Qed.

Lemma color_index_range (r : Q) :
  0 <= r → r < 1 → (0 <= color_index r < Z.of_nat (length colors))%Z.
Proof.
  intros H0 H1. unfold color_index, Math_floor.
  change (Z.of_nat (length colors)) with 10%Z.
  set (p := r * inject_Z 10).
  assert (Hp0 : 0 <= p) by (subst p; change (inject_Z 10) with 10; lra).
  assert (Hp1 : p < 10) by (subst p; change (inject_Z 10) with 10; lra).
  split.
  - change 0%Z with (Qfloor 0). apply Qfloor_resp_le, Hp0.
  - rewrite Zlt_Qlt. apply Qle_lt_trans with p; [apply Qfloor_le|exact Hp1].
Qed.

Lemma array_get_in_range {A : Type} (arr : list A) (k : Z) :
  (0 <= k < Z.of_nat (length arr))%Z →
  ∃ a : A, array_get arr k = Some a ∧ a ∈ arr.
Proof.
  intros Hk. unfold array_get.
  destruct (k <? 0)%Z eqn:E; [apply Z.ltb_lt in E; lia|].
  destruct (lookup_lt_is_Some_2 arr (Z.to_nat k)) as [a Ha]; [lia|].
  exists a. split; [exact Ha|]. apply list_elem_of_lookup. eauto.
Qed.

(** ** The claims on initialization *)

(** C5.  With a canvas, initialization makes an array of exactly
    [BALL_COUNT] balls and sets the count to it, whatever the draws;
    and for draws in [0, 1) and a canvas at least two radii wide and
    high, every ball has the radius [BALL_RADIUS] and lies within the
    walls: [radius <= x <= width - radius] and
    [radius <= y <= height - radius]. *)
Theorem initializeBalls_count_and_bounds (app : App) (canvas : Canvas)
    (rs : RandomSource) :
  canvasRef app = Some canvas →
  length (ballsRef (fst (initializeBalls app rs))) = BALL_COUNT ∧
  ballCount (fst (initializeBalls app rs)) = BALL_COUNT ∧
  (unit_draws rs →
   2 * BALL_RADIUS <= width canvas →
   2 * BALL_RADIUS <= height canvas →
   ∀ b : Ball.t,
     b ∈ ballsRef (fst (initializeBalls app rs)) →
     Ball.radius b = BALL_RADIUS ∧ in_bounds canvas b).
Proof.
  intros Hc.
  assert (Hlen : length (fst (push_balls canvas BALL_COUNT 0 [] rs)) = BALL_COUNT).
  { pose proof (push_balls_spec canvas BALL_COUNT 0 [] rs) as H.
    cbv zeta in H. destruct H as [H _]. exact H. }
  split; [|split].
  - destruct (initializeBalls_canvas app canvas rs Hc) as [-> _]. exact Hlen.
  - destruct (initializeBalls_canvas app canvas rs Hc) as [_ ->]. exact Hlen.
  - intros Hrs Hw Hh b Hin.
    destruct (initializeBalls_elem app canvas rs b Hc Hin) as (j & _ & ->).
    split; [reflexivity|]. unfold in_bounds, ball_of_draws. simpl.
    split; apply drawn_position_in_bounds; try assumption; apply Hrs.
Qed.

Lemma initializeBalls_count_and_bounds_witness :
  length (ballsRef (fst (initializeBalls app_fresh draws_alt))) = 20%nat ∧
  ∀ b : Ball.t,
    b ∈ ballsRef (fst (initializeBalls app_fresh draws_alt)) →
    Ball.radius b = 12 ∧ in_bounds canvas0 b.
Proof.
  destruct (initializeBalls_count_and_bounds app_fresh canvas0 draws_alt eq_refl)
    as (Hlen & _ & Hin).
  split; [exact Hlen|].
  apply Hin; [exact draws_alt_unit | vm_compute; discriminate
             | vm_compute; discriminate].
Defined.

(** C6, as stated, fails: a draw of exactly 0.5 gives a velocity
    component of exactly zero.  With the draws [draws_half], all in
    [0, 1), the first ball has [vx = (0.5 - 0.5) * 2 = 0]. *)
Lemma initial_velocity_can_be_zero :
  unit_draws draws_half ∧
  ∃ b : Ball.t,
    ballsRef (fst (initializeBalls app_fresh draws_half)) !! 0%nat = Some b ∧
    Ball.vx b == 0.
Proof.
  split; [exact draws_half_unit|].
  eexists. split; [reflexivity|]. reflexivity.
Qed.

(** C6, amended.  The velocity components of ball [j] are
    [(d - 0.5) * SPEED_MULTIPLIER] for the draws [d] number [5 j + 2]
    (for vx) and [5 j + 3] (for vy); so a component is zero exactly when
    its draw is 0.5, and is not zero for every other draw. *)
Theorem initial_velocity_zero_iff (app : App) (canvas : Canvas)
    (rs : RandomSource) (j : nat) (b : Ball.t) :
  canvasRef app = Some canvas →
  ballsRef (fst (initializeBalls app rs)) !! j = Some b →
  Ball.vx b = (rs (5 * j + 2)%nat - 0.5) * SPEED_MULTIPLIER ∧
  Ball.vy b = (rs (5 * j + 3)%nat - 0.5) * SPEED_MULTIPLIER ∧
  (Ball.vx b == 0 ↔ rs (5 * j + 2)%nat == 0.5) ∧
  (Ball.vy b == 0 ↔ rs (5 * j + 3)%nat == 0.5).
Proof.
  intros Hc Hb. rewrite (initializeBalls_lookup app canvas rs j Hc) in Hb.
  destruct (decide (j < BALL_COUNT)%nat); [|discriminate].
  injection Hb as <-. unfold ball_of_draws, SPEED_MULTIPLIER. simpl.
  repeat split; intros; lra.
Qed.

Lemma initial_velocity_zero_iff_witness :
  ∃ b : Ball.t,
    ballsRef (fst (initializeBalls app_fresh draws_alt)) !! 1%nat = Some b ∧
    ¬ (Ball.vx b == 0) ∧ ¬ (Ball.vy b == 0).
Proof.
  eexists. split; [reflexivity|].
  destruct (initial_velocity_zero_iff app_fresh canvas0 draws_alt 1 _
              eq_refl eq_refl) as (_ & _ & Hx & Hy).
  split; intros H; [apply Hx in H | apply Hy in H]; vm_compute in H;
    discriminate.
Defined.

(** C10.  The palette has ten colours.  For every draw in [0, 1) the
    index read by [getRandomColor] is within the palette and the result
    is one of its colours, never [undefined]; hence with draws in [0, 1)
    the colour of every initialized ball is a colour of the palette. *)
Theorem getRandomColor_in_palette :
  length colors = 10%nat ∧
  (∀ rs : RandomSource,
     0 <= rs 0%nat ∧ rs 0%nat < 1 →
     (0 <= color_index (rs 0%nat) < Z.of_nat (length colors))%Z ∧
     ∃ c : string, fst (getRandomColor rs) = Some c ∧ c ∈ colors) ∧
  (∀ (app : App) (canvas : Canvas) (rs : RandomSource) (b : Ball.t),
     canvasRef app = Some canvas →
     unit_draws rs →
     b ∈ ballsRef (fst (initializeBalls app rs)) →
     ∃ c : string, Ball.color b = Some c ∧ c ∈ colors).
Proof.
  split; [reflexivity|]. split.
  - intros rs [H0 H1].
    pose proof (color_index_range (rs 0%nat) H0 H1) as Hk.
    split; [exact Hk|]. apply (array_get_in_range colors _ Hk).
  - intros app canvas rs b Hc Hrs Hin.
    destruct (initializeBalls_elem app canvas rs b Hc Hin) as (j & _ & ->).
    unfold ball_of_draws. simpl.
    apply array_get_in_range, color_index_range; apply Hrs.
Qed.

Lemma getRandomColor_in_palette_witness :
  ∃ c : string, fst (getRandomColor draws_alt) = Some c ∧ c ∈ colors.
Proof.
  destruct getRandomColor_in_palette as (_ & H & _).
  apply (H draws_alt). split; vm_compute; [discriminate|reflexivity].
Defined.

(** * Further properties of the code *)

(** ** The step on a ball within the walls *)

(** One axis of a step on a ball between the walls: it ends between
    the walls. *)
Lemma axis_within (p v r lim : Q) :
  r <= p → p <= lim - r →
  r <= fst (spec_axis p v r lim) ∧ fst (spec_axis p v r lim) <= lim - r.
Proof.
  intros Hlo Hhi. unfold spec_axis.
  destruct (Qle_bool (p + v) r || Qle_bool (lim - r) (p + v)) eqn:E.
  - cbn [fst].
    destruct (max_min_clamped r (lim - r) (p + v)) as (H1 & H2 & _); [lra|].
    unfold Math_max, Math_min in *. split; assumption.
  - apply (hits_wall_false (p + v) r lim) in E. cbn [fst]. split; lra.
Qed.

Lemma update_ball_axes (canvas : Canvas) (b : Ball.t) :
  (Ball.x (update_ball canvas b), Ball.vx (update_ball canvas b))
  = spec_axis (Ball.x b) (Ball.vx b) (Ball.radius b) (width canvas) ∧
  (Ball.y (update_ball canvas b), Ball.vy (update_ball canvas b))
  = spec_axis (Ball.y b) (Ball.vy b) (Ball.radius b) (height canvas).
Proof.
  rewrite update_ball_spec_step. unfold spec_step.
  destruct (spec_axis (Ball.x b) _ _ _), (spec_axis (Ball.y b) _ _ _).
  split; reflexivity.
Qed.

Lemma update_ball_within (canvas : Canvas) (b : Ball.t) :
  in_bounds canvas b → in_bounds canvas (update_ball canvas b).
Proof.
  intros [[Hx1 Hx2] [Hy1 Hy2]]. unfold in_bounds.
  destruct (update_ball_frame canvas b) as (_ & -> & _).
  destruct (update_ball_axes canvas b) as [Ex Ey].
  pose proof (axis_within _ (Ball.vx b) _ _ Hx1 Hx2) as Hx.
  pose proof (axis_within _ (Ball.vy b) _ _ Hy1 Hy2) as Hy.
  rewrite <- Ex in Hx. rewrite <- Ey in Hy. split; assumption.
Qed.

(** One axis of a step that reaches the far wall, with room between the
    walls: the position is the wall's and the velocity is negated. *)
Lemma axis_far_wall (p v r lim : Q) :
  lim - r <= p + v → r <= lim - r →
  fst (spec_axis p v r lim) == lim - r ∧ snd (spec_axis p v r lim) = - v.
Proof.
  intros Hhit Hroom. rewrite spec_axis_hit by (right; exact Hhit).
  cbn [fst snd]. split; [|reflexivity].
  destruct (max_min_clamped r (lim - r) (p + v) Hroom) as (_ & _ & _ & _ & H).
  apply H, Hhit.
Qed.

(** One axis of a step that reaches the near wall. *)
Lemma axis_near_wall (p v r lim : Q) :
  p + v <= r →
  fst (spec_axis p v r lim) = r ∧ snd (spec_axis p v r lim) = - v.
Proof.
  intros Hhit. rewrite spec_axis_hit by (left; exact Hhit).
  cbn [fst snd]. split; [|reflexivity].
  apply (max_min_low r (lim - r) (p + v) Hhit).
Qed.

(** X1.  The right, top and bottom walls reflect as the left one does.
    A ball whose incremented position is at or beyond the right wall
    ([width - radius <= x + vx]), in a canvas at least two radii wide,
    ends the step at [x = width - radius] with [vx] negated; at or above
    the top wall ([y + vy <= radius]) it ends at [y = radius] with [vy]
    negated; at or below the bottom wall
    ([height - radius <= y + vy]), in a canvas at least two radii high,
    at [y = height - radius] with [vy] negated.  The axes are handled
    one after the other in the same step, so a ball in a corner is
    reflected on both. *)
Theorem other_walls_reflect (canvas : Canvas) (b : Ball.t) :
  let b' := update_ball canvas b in
  (width canvas - Ball.radius b <= Ball.x b + Ball.vx b →
   Ball.radius b <= width canvas - Ball.radius b →
   Ball.x b' == width canvas - Ball.radius b ∧ Ball.vx b' = - Ball.vx b) ∧
  (Ball.y b + Ball.vy b <= Ball.radius b →
   Ball.y b' = Ball.radius b ∧ Ball.vy b' = - Ball.vy b) ∧
  (height canvas - Ball.radius b <= Ball.y b + Ball.vy b →
   Ball.radius b <= height canvas - Ball.radius b →
   Ball.y b' == height canvas - Ball.radius b ∧ Ball.vy b' = - Ball.vy b).
Proof.
  intros b'. subst b'. destruct (update_ball_axes canvas b) as [Ex Ey].
  split; [|split].
  - intros Hhit Hroom.
    pose proof (axis_far_wall _ _ _ _ Hhit Hroom) as H.
    rewrite <- Ex in H. exact H.
  - intros Hhit.
    pose proof (axis_near_wall _ (Ball.vy b) _ (height canvas) Hhit) as H.
    rewrite <- Ey in H. exact H.
  - intros Hhit Hroom.
    pose proof (axis_far_wall _ _ _ _ Hhit Hroom) as H.
    rewrite <- Ey in H. exact H.
Qed.

Lemma other_walls_reflect_witness :
  Ball.x (update_ball canvas0 ball5) == 388 ∧
  Ball.vx (update_ball canvas0 ball5) = - (3) ∧
  Ball.y (update_ball canvas0 ball5) == 288 ∧
  Ball.vy (update_ball canvas0 ball5) = - (7).
Proof.
  destruct (other_walls_reflect canvas0 ball5) as (Hx & _ & Hy).
  destruct Hx as [Hx Hvx]; [vm_compute; discriminate..|].
  destruct Hy as [Hy Hvy]; [vm_compute; discriminate..|].
  repeat split; assumption.
Defined.

(** ** Many steps *)

Lemma steps_S (n : nat) (app : App) :
  steps (S n) app = updateBalls (steps n app).
Proof. reflexivity. Qed.

Lemma steps_lookup (app : App) (canvas : Canvas) (n i : nat) :
  canvasRef app = Some canvas →
  ballsRef (steps n app) !! i
  = Nat.iter n (update_ball canvas) <$> (ballsRef app !! i).
Proof.
  intros Hc. induction n as [|n IH].
  - simpl. destruct (ballsRef app !! i); reflexivity.
  - rewrite steps_S, (updateBalls_lookup _ canvas i), IH.
    + destruct (ballsRef app !! i); reflexivity.
    + rewrite steps_canvas. exact Hc.
Qed.

(** A field that a step on one ball keeps is kept, ball by ball, by any
    number of steps of the array. *)
Lemma steps_keep {A : Type} (g : Ball.t → A) (n : nat) (app : App) :
  (∀ (canvas : Canvas) (b : Ball.t), g (update_ball canvas b) = g b) →
  g <$> ballsRef (steps n app) = g <$> ballsRef app.
Proof.
  intros Hg. induction n as [|n IH]; [reflexivity|].
  rewrite steps_S, <- IH.
  destruct (canvasRef (steps n app)) as [canvas|] eqn:Hc.
  - rewrite (updateBalls_canvas _ canvas Hc), <- list_fmap_compose.
    apply list_fmap_ext. intros i b _. apply Hg.
  - rewrite (updateBalls_no_canvas _ Hc). reflexivity.
Qed.

Lemma steps_ballCount (n : nat) (app : App) :
  ballCount (steps n app) = ballCount app.
Proof.
  induction n as [|n IH]; [reflexivity|].
  rewrite steps_S, <- IH. unfold updateBalls.
  destruct (canvasRef (steps n app)); reflexivity.
Qed.

(** X3.  Any number of steps keeps the canvas, the count, the number of
    balls, and for every ball its id, radius, colour and the absolute
    value of each velocity component: the speed of a ball along each
    axis is the same for the whole run. *)
Theorem steps_keep_identity_and_speed (n : nat) (app : App) :
  canvasRef (steps n app) = canvasRef app ∧
  ballCount (steps n app) = ballCount app ∧
  length (ballsRef (steps n app)) = length (ballsRef app) ∧
  Ball.id <$> ballsRef (steps n app) = Ball.id <$> ballsRef app ∧
  Ball.radius <$> ballsRef (steps n app) = Ball.radius <$> ballsRef app ∧
  Ball.color <$> ballsRef (steps n app) = Ball.color <$> ballsRef app ∧
  (λ b, Qabs (Ball.vx b)) <$> ballsRef (steps n app)
  = (λ b, Qabs (Ball.vx b)) <$> ballsRef app ∧
  (λ b, Qabs (Ball.vy b)) <$> ballsRef (steps n app)
  = (λ b, Qabs (Ball.vy b)) <$> ballsRef app.
Proof.
  split; [apply steps_canvas|]. split; [apply steps_ballCount|].
  assert (Hid : Ball.id <$> ballsRef (steps n app) = Ball.id <$> ballsRef app)
    by (apply steps_keep; intros; apply update_ball_frame).
  split.
  { rewrite <- (length_fmap Ball.id), Hid. apply length_fmap. }
  split; [exact Hid|].
  split; [apply steps_keep; intros; apply update_ball_frame|].
  split; [apply steps_keep; intros; apply update_ball_frame|].
  split; apply steps_keep; intros; apply update_ball_speed.
Qed.

(** One axis of a ball at rest between the walls. *)
Lemma axis_at_rest (p v r lim : Q) :
  r <= p → p <= lim - r → v == 0 →
  fst (spec_axis p v r lim) == p ∧ snd (spec_axis p v r lim) == 0.
Proof.
  intros Hlo Hhi Hv. unfold spec_axis.
  destruct (Qle_bool (p + v) r || Qle_bool (lim - r) (p + v)) eqn:E;
    cbn [fst snd]; [|split; lra].
  apply (hits_wall_true (p + v) r lim) in E.
  destruct (max_min_clamped r (lim - r) (p + v)) as (_ & _ & _ & H4 & H5);
    [lra|]. unfold Math_max, Math_min in *.
  split; [|lra]. destruct E as [E|E];
    [rewrite (H4 E) | rewrite (H5 E)]; lra.
Qed.

Lemma update_ball_at_rest (canvas : Canvas) (b : Ball.t) :
  in_bounds canvas b → at_rest b →
  Ball.x (update_ball canvas b) == Ball.x b ∧
  Ball.y (update_ball canvas b) == Ball.y b ∧
  at_rest (update_ball canvas b).
Proof.
  intros [[Hx1 Hx2] [Hy1 Hy2]] [Hvx Hvy].
  destruct (update_ball_axes canvas b) as [Ex Ey].
  pose proof (axis_at_rest _ _ _ _ Hx1 Hx2 Hvx) as [Hx Hx'].
  pose proof (axis_at_rest _ _ _ _ Hy1 Hy2 Hvy) as [Hy Hy'].
  rewrite <- Ex in Hx, Hx'. rewrite <- Ey in Hy, Hy'.
  unfold at_rest. auto.
Qed.

Lemma iter_at_rest (canvas : Canvas) (b : Ball.t) (n : nat) :
  in_bounds canvas b → at_rest b →
  Ball.x (Nat.iter n (update_ball canvas) b) == Ball.x b ∧
  Ball.y (Nat.iter n (update_ball canvas) b) == Ball.y b ∧
  at_rest (Nat.iter n (update_ball canvas) b) ∧
  in_bounds canvas (Nat.iter n (update_ball canvas) b).
Proof.
  intros Hin Hrest. induction n as [|n (Hx & Hy & Hr & Hb)].
  - simpl. repeat split; try reflexivity; apply Hrest || apply Hin.
  - simpl. destruct (update_ball_at_rest canvas _ Hb Hr) as (Hx' & Hy' & Hr').
    split; [rewrite Hx'; exact Hx|]. split; [rewrite Hy'; exact Hy|].
    split; [exact Hr'|]. apply update_ball_within, Hb.
Qed.

(** X4.  A ball at rest within the walls stays where it is, at rest,
    through any number of steps. *)
Theorem resting_ball_stays (app : App) (canvas : Canvas) (n i : nat)
    (b : Ball.t) :
  canvasRef app = Some canvas →
  ballsRef app !! i = Some b →
  in_bounds canvas b →
  at_rest b →
  ∃ b' : Ball.t,
    ballsRef (steps n app) !! i = Some b' ∧
    Ball.x b' == Ball.x b ∧ Ball.y b' == Ball.y b ∧ at_rest b'.
Proof.
  intros Hc Hb Hin Hrest.
  exists (Nat.iter n (update_ball canvas) b). split.
  - rewrite (steps_lookup app canvas n i Hc), Hb. reflexivity.
  - destruct (iter_at_rest canvas b n Hin Hrest) as (Hx & Hy & Hr & _). auto.
Qed.

Lemma resting_ball_stays_witness :
  ∃ b' : Ball.t,
    ballsRef (steps 3 app4) !! 1%nat = Some b' ∧
    Ball.x b' == 12 ∧ Ball.y b' == 100 ∧ at_rest b'.
Proof.
  apply (resting_ball_stays app4 canvas0 3 1 ball4 eq_refl eq_refl).
  - vm_compute. intuition discriminate.
  - split; reflexivity.
Defined.

(** ** More on initialization *)

Lemma push_balls_rest (canvas : Canvas) (n : nat) :
  ∀ (i : Z) (balls : list Ball.t) (rs : RandomSource) (k : nat),
    snd (push_balls canvas n i balls rs) k = rs (5 * n + k)%nat.
Proof.
  induction n as [|n IH]; intros i balls rs k.
  - reflexivity.
  - change (snd (push_balls canvas (S n) i balls rs))
      with (snd (push_balls canvas n (i + 1)%Z
                   (balls ++ [fst (new_ball canvas i rs)]) (advance 5 rs))).
    rewrite IH. unfold advance. f_equal. lia.
Qed.

Lemma initializeBalls_rest (app : App) (canvas : Canvas) (rs : RandomSource)
    (k : nat) :
  canvasRef app = Some canvas →
  snd (initializeBalls app rs) k = rs (5 * BALL_COUNT + k)%nat.
Proof.
  intros Hc. rewrite <- (push_balls_rest canvas BALL_COUNT 0 [] rs k).
  unfold initializeBalls. rewrite Hc. unfold bind, ret.
  destruct (push_balls canvas BALL_COUNT 0 [] rs). reflexivity.
Qed.

Lemma initializeBalls_canvasRef (app : App) (rs : RandomSource) :
  canvasRef (fst (initializeBalls app rs)) = canvasRef app.
Proof.
  unfold initializeBalls. destruct (canvasRef app) as [canvas|] eqn:Hc.
  - unfold bind, ret. destruct (push_balls canvas BALL_COUNT 0 [] rs).
    reflexivity.
  - exact Hc.
Qed.

Lemma initializeBalls_length (app : App) (canvas : Canvas) (rs : RandomSource) :
  canvasRef app = Some canvas →
  length (ballsRef (fst (initializeBalls app rs))) = BALL_COUNT ∧
  ballCount (fst (initializeBalls app rs)) = BALL_COUNT.
Proof.
  intros Hc.
  destruct (initializeBalls_canvas app canvas rs Hc) as [-> ->].
  pose proof (push_balls_spec canvas BALL_COUNT 0 [] rs) as H.
  cbv zeta in H. destruct H as [H _]. split; exact H.
Qed.

Lemma unit_draws_rest (app : App) (rs : RandomSource) :
  unit_draws rs → unit_draws (snd (initializeBalls app rs)).
Proof.
  intros Hrs k. destruct (canvasRef app) as [canvas|] eqn:Hc.
  - rewrite (initializeBalls_rest app canvas rs k Hc). apply Hrs.
  - rewrite (initializeBalls_no_canvas app rs Hc). apply Hrs.
Qed.

(** X5.  With a canvas, the ids of the new balls are 0, 1, ...,
    [BALL_COUNT - 1] in the order of the array; no two balls share an
    id. *)
Theorem initializeBalls_ids (app : App) (canvas : Canvas) (rs : RandomSource) :
  canvasRef app = Some canvas →
  Ball.id <$> ballsRef (fst (initializeBalls app rs))
  = Z.of_nat <$> seq 0 BALL_COUNT ∧
  NoDup (Ball.id <$> ballsRef (fst (initializeBalls app rs))).
Proof.
  intros Hc.
  assert (E : Ball.id <$> ballsRef (fst (initializeBalls app rs))
              = Z.of_nat <$> seq 0 BALL_COUNT).
  { apply list_eq. intros j.
    rewrite !list_lookup_fmap, (initializeBalls_lookup app canvas rs j Hc).
    destruct (decide (j < BALL_COUNT)%nat) as [Hj|Hj].
    - rewrite lookup_seq_lt by exact Hj. reflexivity.
    - rewrite lookup_seq_ge by lia. reflexivity. }
  split; [exact E|]. rewrite E.
  apply NoDup_fmap_2; [apply Nat2Z.inj'|apply NoDup_seq].
Qed.

Lemma initializeBalls_ids_witness :
  Ball.id <$> ballsRef (fst (initializeBalls app_fresh draws_alt))
  = Z.of_nat <$> seq 0 20.
Proof.
  apply (initializeBalls_ids app_fresh canvas0 draws_alt eq_refl).
Defined.

(** X6.  With a canvas, initialization uses exactly the next
    [5 * BALL_COUNT] draws: the source is left at the draw after them,
    and the new balls depend on nothing but the canvas and those draws,
    not on the balls or the count held before. *)
Theorem initializeBalls_draws (app : App) (canvas : Canvas) (rs : RandomSource) :
  canvasRef app = Some canvas →
  (∀ k : nat, snd (initializeBalls app rs) k = rs (5 * BALL_COUNT + k)%nat) ∧
  (∀ (app' : App) (rs' : RandomSource),
     canvasRef app' = Some canvas →
     (∀ k : nat, (k < 5 * BALL_COUNT)%nat → rs' k = rs k) →
     ballsRef (fst (initializeBalls app' rs'))
     = ballsRef (fst (initializeBalls app rs))).
Proof.
  intros Hc. split.
  - intros k. apply (initializeBalls_rest app canvas rs k Hc).
  - intros app' rs' Hc' Hagree. apply list_eq. intros j.
    rewrite (initializeBalls_lookup app canvas rs j Hc),
      (initializeBalls_lookup app' canvas rs' j Hc').
    destruct (decide (j < BALL_COUNT)%nat) as [Hj|Hj]; [|reflexivity].
    rewrite !Hagree by lia. reflexivity.
Qed.

Lemma initializeBalls_draws_witness :
  snd (initializeBalls app_fresh draws_alt) 3%nat = draws_alt 103%nat.
Proof.
  apply (proj1 (initializeBalls_draws app_fresh canvas0 draws_alt eq_refl)).
Defined.

(** X7.  With a canvas and draws in [0, 1), every initial velocity
    component is at least [- SPEED_MULTIPLIER / 2] and less than
    [SPEED_MULTIPLIER / 2]: no ball starts faster than one unit a frame
    along an axis. *)
Theorem initial_velocity_range (app : App) (canvas : Canvas)
    (rs : RandomSource) (b : Ball.t) :
  canvasRef app = Some canvas →
  unit_draws rs →
  b ∈ ballsRef (fst (initializeBalls app rs)) →
  (- (SPEED_MULTIPLIER / 2) <= Ball.vx b ∧ Ball.vx b < SPEED_MULTIPLIER / 2) ∧
  (- (SPEED_MULTIPLIER / 2) <= Ball.vy b ∧ Ball.vy b < SPEED_MULTIPLIER / 2).
Proof.
  intros Hc Hrs Hin.
  destruct (initializeBalls_elem app canvas rs b Hc Hin) as (j & _ & ->).
  unfold ball_of_draws, SPEED_MULTIPLIER. cbn [Ball.vx Ball.vy].
  change (2 / 2) with (2 # 2).
  pose proof (Hrs (5 * j + 2)%nat). pose proof (Hrs (5 * j + 3)%nat).
  repeat split; lra.
Qed.

Lemma initial_velocity_range_witness :
  ∃ b : Ball.t,
    ballsRef (fst (initializeBalls app_fresh draws_alt)) !! 0%nat = Some b ∧
    (- (2 / 2) <= Ball.vx b ∧ Ball.vx b < 2 / 2) ∧
    (- (2 / 2) <= Ball.vy b ∧ Ball.vy b < 2 / 2).
Proof.
  eexists. split; [reflexivity|].
  apply (initial_velocity_range app_fresh canvas0 draws_alt _ eq_refl
           draws_alt_unit).
  apply list_elem_of_lookup. exists 0%nat. reflexivity.
Defined.

(** A position drawn for a wall-to-wall distance below two radii. *)
Lemma drawn_position_narrow (r lim : Q) :
  0 <= r → r < 1 → lim < 2 * BALL_RADIUS →
  lim - BALL_RADIUS <= r * (lim - BALL_RADIUS * 2) + BALL_RADIUS ∧
  r * (lim - BALL_RADIUS * 2) + BALL_RADIUS <= BALL_RADIUS.
Proof.
  unfold BALL_RADIUS. intros H0 H1 Hl. split; nra.
Qed.

(** In a canvas narrower than two radii of a ball, a step puts the ball
    at [x = radius]; likewise for the height and [y]. *)
Lemma update_ball_narrow (canvas : Canvas) (b : Ball.t) :
  (width canvas < 2 * Ball.radius b →
   Ball.x (update_ball canvas b) = Ball.radius b) ∧
  (height canvas < 2 * Ball.radius b →
   Ball.y (update_ball canvas b) = Ball.radius b).
Proof.
  split; intros Hn.
  - pose proof (update_ball_x canvas b) as E. cbv zeta in E.
    match type of E with
    | _ = (if ?c then _ else _) => assert (Hhit : c = true)
    end.
    { apply hits_wall_true. lra. }
    rewrite Hhit in E. injection E as Ex _. rewrite Ex.
    apply max_min_degenerate. lra.
  - pose proof (update_ball_y canvas b) as E. cbv zeta in E.
    match type of E with
    | _ = (if ?c then _ else _) => assert (Hhit : c = true)
    end.
    { apply hits_wall_true. lra. }
    rewrite Hhit in E. injection E as Ey _. rewrite Ey.
    apply max_min_degenerate. lra.
Qed.

(** X8.  With a canvas narrower than two ball radii and draws in [0, 1),
    every new ball is placed with [width - radius <= x <= radius],
    between the walls taken the wrong way round; the first step then
    puts every ball at [x = BALL_RADIUS].  Likewise for a canvas lower
    than two radii and [y]. *)
Theorem initializeBalls_narrow (app : App) (canvas : Canvas) (rs : RandomSource) :
  canvasRef app = Some canvas →
  unit_draws rs →
  (width canvas < 2 * BALL_RADIUS →
     (∀ b : Ball.t,
        b ∈ ballsRef (fst (initializeBalls app rs)) →
        width canvas - BALL_RADIUS <= Ball.x b ∧ Ball.x b <= BALL_RADIUS) ∧
     (∀ b : Ball.t,
        b ∈ ballsRef (updateBalls (fst (initializeBalls app rs))) →
        Ball.x b = BALL_RADIUS)) ∧
  (height canvas < 2 * BALL_RADIUS →
     (∀ b : Ball.t,
        b ∈ ballsRef (fst (initializeBalls app rs)) →
        height canvas - BALL_RADIUS <= Ball.y b ∧ Ball.y b <= BALL_RADIUS) ∧
     (∀ b : Ball.t,
        b ∈ ballsRef (updateBalls (fst (initializeBalls app rs))) →
        Ball.y b = BALL_RADIUS)).
Proof.
  intros Hc Hrs.
  assert (Hc' : canvasRef (fst (initializeBalls app rs)) = Some canvas)
    by (rewrite initializeBalls_canvasRef; exact Hc).
  split; intros Hn; split; intros b Hin.
  - destruct (initializeBalls_elem app canvas rs b Hc Hin) as (j & _ & ->).
    unfold ball_of_draws. cbn [Ball.x].
    apply drawn_position_narrow; try assumption; apply Hrs.
  - rewrite (updateBalls_canvas _ canvas Hc') in Hin.
    apply list_elem_of_fmap in Hin as (b0 & -> & Hin).
    destruct (initializeBalls_elem app canvas rs b0 Hc Hin) as (j & _ & ->).
    apply (update_ball_narrow canvas). exact Hn.
  - destruct (initializeBalls_elem app canvas rs b Hc Hin) as (j & _ & ->).
    unfold ball_of_draws. cbn [Ball.y].
    apply drawn_position_narrow; try assumption; apply Hrs.
  - rewrite (updateBalls_canvas _ canvas Hc') in Hin.
    apply list_elem_of_fmap in Hin as (b0 & -> & Hin).
    destruct (initializeBalls_elem app canvas rs b0 Hc Hin) as (j & _ & ->).
    apply (update_ball_narrow canvas). exact Hn.
Qed.

Lemma initializeBalls_narrow_witness :
  ∃ b : Ball.t,
    ballsRef (updateBalls (fst (initializeBalls app_fresh_narrow draws_alt)))
      !! 0%nat = Some b ∧
    Ball.x b = 12.
Proof.
  destruct (initializeBalls_narrow app_fresh_narrow narrow draws_alt eq_refl
              draws_alt_unit) as [H _].
  eexists. split; [reflexivity|].
  apply H; [vm_compute; reflexivity|].
  apply list_elem_of_lookup. exists 0%nat. reflexivity.
Defined.

(** ** More on the colour picker *)

Lemma Qfloor_eq_iff (q : Q) (z : Z) :
  Qfloor q = z ↔ inject_Z z <= q ∧ q < inject_Z (z + 1).
Proof.
  split.
  - intros <-. split; [apply Qfloor_le|apply Qlt_floor].
  - intros [Hlo Hhi].
    assert (z <= Qfloor q)%Z
      by (rewrite <- (Qfloor_Z z); apply Qfloor_resp_le, Hlo).
    assert (Qfloor q < z + 1)%Z
      by (rewrite Zlt_Qlt; apply Qle_lt_trans with q; [apply Qfloor_le|exact Hhi]).
    lia.
Qed.

Lemma colors_NoDup : NoDup colors.
Proof. apply (bool_decide_unpack _). vm_compute. exact I. Qed.

(** With the product [draw * 10] taken exactly, the index is [k] for
    the draws of the [k]th tenth. *)
Lemma color_index_bucket (r : Q) (k : Z) :
  color_index r = k ↔
  inject_Z k / 10 <= r ∧ r < (inject_Z k + 1) / 10.
Proof.
  unfold color_index, Math_floor.
  change (inject_Z (Z.of_nat (length colors))) with 10.
  rewrite Qfloor_eq_iff, inject_Z_plus. change (inject_Z 1) with 1.
  unfold Qdiv. change (/ 10) with (1 # 10).
  split; intros [H1 H2]; split; lra.
Qed.

Lemma color_index_monotone (r1 r2 : Q) :
  r1 <= r2 → (color_index r1 <= color_index r2)%Z.
Proof.
  intros H. unfold color_index, Math_floor.
  change (inject_Z (Z.of_nat (length colors))) with 10.
  apply Qfloor_resp_le. lra.
Qed.

(** X9.  The index the colour picker reads never decreases when the
    draw grows, and a draw at least 1/1000 inside the [k]th tenth of
    [0, 1), that is in [[k / 10 + 1 / 1000, (k + 1) / 10 - 1 / 1000]],
    gives the [k]th colour of the palette: every one of the ten
    colours can be picked. *)
Theorem getRandomColor_monotone_onto :
  (∀ r1 r2 : Q, r1 <= r2 → (color_index r1 <= color_index r2)%Z) ∧
  (∀ (k : nat) (rs : RandomSource),
     (k < length colors)%nat →
     inject_Z (Z.of_nat k) / 10 + 1 / 1000 <= rs 0%nat →
     rs 0%nat <= (inject_Z (Z.of_nat k) + 1) / 10 - 1 / 1000 →
     fst (getRandomColor rs) = colors !! k).
Proof.
  split; [exact color_index_monotone|].
  intros k rs Hk Hlo Hhi.
  change (fst (getRandomColor rs))
    with (array_get colors (color_index (rs 0%nat))).
  assert (E : color_index (rs 0%nat) = Z.of_nat k).
  { apply color_index_bucket. unfold Qdiv in *.
    change (/ 10) with (1 # 10) in *. change (/ 1000) with (1 # 1000) in *.
    split; lra. }
  rewrite E. unfold array_get. rewrite Nat2Z.id.
  destruct (Z.of_nat k <? 0)%Z eqn:E0; [apply Z.ltb_lt in E0; lia|reflexivity].
Qed.

Lemma getRandomColor_monotone_onto_witness :
  fst (getRandomColor draws_alt) = Some "#45B7D1"%string.
Proof.
  apply (proj2 getRandomColor_monotone_onto 2%nat draws_alt);
    vm_compute; [lia|discriminate..].
Defined.

(** X10.  The colour picker gives a colour, and not [undefined], exactly
    when its draw is in [0, 1). *)
Theorem getRandomColor_defined_iff (rs : RandomSource) :
  is_Some (fst (getRandomColor rs)) ↔ 0 <= rs 0%nat ∧ rs 0%nat < 1.
Proof.
  change (fst (getRandomColor rs)) with (array_get colors (color_index (rs 0%nat))).
  split.
  - intros H. unfold array_get in H.
    destruct (color_index (rs 0%nat) <? 0)%Z eqn:E;
      [destruct H; discriminate|].
    apply Z.ltb_ge in E. apply lookup_lt_is_Some_1 in H.
    change (length colors) with 10%nat in H.
    destruct (proj1 (color_index_bucket (rs 0%nat) _) eq_refl) as [H1 H2].
    set (k := color_index (rs 0%nat)) in *.
    assert (Hk0 : 0 <= inject_Z k) by (change 0 with (inject_Z 0); rewrite <- Zle_Qle; exact E).
    assert (Hk9 : inject_Z k + 1 <= 10).
    { change 10 with (inject_Z 10). change 1 with (inject_Z 1).
      rewrite <- inject_Z_plus, <- Zle_Qle. lia. }
    unfold Qdiv in *. change (/ 10) with (1 # 10) in *. split; lra.
  - intros [H0 H1].
    destruct (array_get_in_range colors _ (color_index_range _ H0 H1))
      as (c & -> & _). eexists. reflexivity.
Qed.

(** ** Resizing *)

(** X11.  With a canvas, a container at least two ball radii wide and
    high, and draws in [0, 1), the resize handler gives the canvas the
    size of the container and replaces the balls by [BALL_COUNT] new
    ones, all of them within the walls of the resized canvas. *)
Theorem handleResize_fits (app : App) (canvas : Canvas) (container : Container)
    (rs : RandomSource) :
  canvasRef app = Some canvas →
  2 * BALL_RADIUS <= clientWidth container →
  2 * BALL_RADIUS <= clientHeight container →
  unit_draws rs →
  let app' := fst (handleResize (Some container) app rs) in
  let canvas' := {| width := clientWidth container;
                    height := clientHeight container |} in
  canvasRef app' = Some canvas' ∧
  length (ballsRef app') = BALL_COUNT ∧
  ballCount app' = BALL_COUNT ∧
  ∀ b : Ball.t, b ∈ ballsRef app' → in_bounds canvas' b.
Proof.
  intros Hc Hw Hh Hrs app' canvas'.
  assert (Hr : canvasRef (resizeCanvas (Some container) app) = Some canvas')
    by (unfold resizeCanvas; rewrite Hc; reflexivity).
  subst app'. unfold handleResize.
  split; [rewrite initializeBalls_canvasRef; exact Hr|].
  destruct (initializeBalls_length _ canvas' rs Hr) as [Hlen Hcount].
  split; [exact Hlen|]. split; [exact Hcount|].
  intros b Hin.
  destruct (initializeBalls_elem _ canvas' rs b Hr Hin) as (j & _ & ->).
  unfold in_bounds, ball_of_draws. cbn [Ball.x Ball.y Ball.radius].
  split; apply drawn_position_in_bounds; try assumption; apply Hrs.
Qed.

Lemma handleResize_fits_witness :
  canvasRef (fst (handleResize (Some container0) app0 draws_alt))
  = Some {| width := 640; height := 480 |} ∧
  length (ballsRef (fst (handleResize (Some container0) app0 draws_alt))) = 20%nat.
Proof.
  destruct (handleResize_fits app0 canvas0 container0 draws_alt eq_refl)
    as (H1 & H2 & _); [vm_compute; discriminate | vm_compute; discriminate
                      | exact draws_alt_unit |].
  split; [exact H1|exact H2].
Defined.

(** ** Drawing *)

Lemma foldl_append_calls (f : Ball.t → list DrawCmd) (balls : list Ball.t) :
  ∀ calls : list DrawCmd,
    foldl (λ calls ball, calls ++ f ball) calls balls
    = calls ++ concat (f <$> balls).
Proof.
  induction balls as [|b balls IH]; intros calls; simpl.
  - rewrite app_nil_r. reflexivity.
  - rewrite IH, <- app_assoc. reflexivity.
Qed.

Lemma drawBalls_calls (app : App) (canvas : Canvas) (calls : list DrawCmd) :
  canvasRef app = Some canvas →
  drawBalls (Some calls) app
  = Some (calls ++ [SetFillStyle (Some "#f0f0f0"%string);
                    FillRect 0 0 (width canvas) (height canvas)]
                ++ concat (draw_ball <$> ballsRef app)).
Proof.
  intros Hc. unfold drawBalls. rewrite Hc, foldl_append_calls.
  rewrite <- !app_assoc. reflexivity.
Qed.

(** What the calls for one ball of colour [c] paint: its disc in [c],
    whatever the fill style and the path were. *)
Lemma paint_draw_ball (ball : Ball.t) (c : string) (pen : Pen)
    (out : list Painted) :
  Ball.color ball = Some c →
  foldl paint_call (pen, out) (draw_ball ball)
  = ({| fillStyle := c;
        path := [(Ball.x ball, Ball.y ball, Ball.radius ball, 0, Math_PI * 2)] |},
     out ++ [disc_of ball c]).
Proof. intros Hcol. unfold draw_ball. rewrite Hcol. reflexivity. Qed.

Lemma paint_draw_balls (balls : list Ball.t) :
  (∀ b : Ball.t, b ∈ balls → is_Some (Ball.color b)) →
  ∀ (pen : Pen) (out : list Painted),
    snd (foldl paint_call (pen, out) (concat (draw_ball <$> balls)))
    = out ++ ((λ b, disc_of b (default ""%string (Ball.color b))) <$> balls).
Proof.
  induction balls as [|b balls IH]; intros Hcol pen out.
  - simpl. rewrite app_nil_r. reflexivity.
  - destruct (Hcol b) as [c Hc]; [left|].
    rewrite fmap_cons, concat_cons, foldl_app, (paint_draw_ball b c pen out Hc).
    rewrite IH by (intros b' Hb'; apply Hcol; right; exact Hb').
    rewrite fmap_cons, Hc, <- app_assoc. reflexivity.
Qed.

(** X12.  With a canvas and a context, [drawBalls] only adds calls to
    the context, and when every ball has a colour these calls paint,
    whatever the fill style and the path of the context were, the
    rectangle of the whole canvas in "#f0f0f0" and then, in the order of
    the array, one full-turn arc per ball, at the position and with the
    radius of the ball, in the colour of that ball. *)
Theorem drawBalls_picture (app : App) (canvas : Canvas) (calls : list DrawCmd) :
  canvasRef app = Some canvas →
  (∀ b : Ball.t, b ∈ ballsRef app → is_Some (Ball.color b)) →
  ∃ new : list DrawCmd,
    drawBalls (Some calls) app = Some (calls ++ new) ∧
    ∀ pen : Pen,
      snd (paint pen new)
      = PaintedRect 0 0 (width canvas) (height canvas) "#f0f0f0"%string
        :: ((λ b, disc_of b (default ""%string (Ball.color b))) <$> ballsRef app).
Proof.
  intros Hc Hcol. eexists. split; [apply (drawBalls_calls app canvas calls Hc)|].
  intros pen. unfold paint. rewrite foldl_app. cbn [foldl paint_call].
  rewrite (paint_draw_balls _ Hcol). reflexivity.
Qed.

Lemma drawBalls_picture_witness :
  ∃ new : list DrawCmd,
    drawBalls (Some [Fill]) app4 = Some ([Fill] ++ new) ∧
    snd (paint pen0 new)
    = [ PaintedRect 0 0 400 300 "#f0f0f0"%string;
        PaintedArc 14 280 12 0 (Math_PI * 2) "#45B7D1"%string;
        PaintedArc 12 100 12 0 (Math_PI * 2) "#96CEB4"%string ].
Proof.
  destruct (drawBalls_picture app4 canvas0 [Fill] eq_refl) as (new & H1 & H2).
  - intros b Hb. apply list_elem_of_In in Hb. simpl in Hb.
    destruct Hb as [<-|[<-|[]]]; eexists; reflexivity.
  - exists new. split; [exact H1|]. rewrite H2. reflexivity.
Defined.

(** ** The page: requests for frames *)

Lemma page_resize_fields (parentElement : option Container) (p : Page) :
  isPlaying (page_resize parentElement p) = isPlaying p ∧
  animationRef (page_resize parentElement p) = animationRef p ∧
  scheduled (page_resize parentElement p) = scheduled p ∧
  next_id (page_resize parentElement p) = next_id p ∧
  context2d (page_resize parentElement p) = context2d p ∧
  component (page_resize parentElement p)
  = fst (handleResize parentElement (component p) (entropy p)) ∧
  entropy (page_resize parentElement p)
  = snd (handleResize parentElement (component p) (entropy p)).
Proof.
  unfold page_resize.
  destruct (handleResize parentElement (component p) (entropy p)).
  repeat split.
Qed.

Lemma sched_ok_resize (parentElement : option Container) (p : Page) :
  sched_ok p → sched_ok (page_resize parentElement p).
Proof.
  destruct (page_resize_fields parentElement p) as (H1 & H2 & H3 & H4 & _).
  unfold sched_ok. rewrite H1, H2, H3, H4. auto.
Qed.

(** Running the effect while playing, with nothing waiting. *)
Lemma sched_ok_play (p : Page) :
  (0 < next_id p)%Z → isPlaying p = true → scheduled p = [] →
  sched_ok (playPause_effect p).
Proof.
  intros Hn Hp Hs. unfold playPause_effect, requestAnimationFrame, sched_ok.
  rewrite Hp, Hs. cbn. rewrite Hp. split; [lia|].
  exists (next_id p). repeat split; lia.
Qed.

Lemma cancel_current_none (p : Page) :
  scheduled p = [] → cancel_current p = p.
Proof.
  intros Hs. unfold cancel_current, cancelAnimationFrame.
  destruct (animationRef p) as [id|]; [|reflexivity].
  destruct (truthy (Some id)); [|reflexivity].
  rewrite Hs. simpl. destruct p; simpl in *. rewrite Hs. reflexivity.
Qed.

(** Cancelling the request [animationRef] holds, the only one waiting. *)
Lemma cancel_current_one (p : Page) (id : Z) (k : bool) :
  scheduled p = [(id, k)] → animationRef p = Some id → (0 < id)%Z →
  cancel_current p = set_scheduled [] p.
Proof.
  intros Hs Hr Hid. unfold cancel_current, cancelAnimationFrame, truthy.
  rewrite Hr, Hs.
  destruct (Z.eqb_spec id 0) as [->|_]; [lia|]. cbn.
  rewrite Z.eqb_refl. reflexivity.
Qed.

Lemma sched_ok_click (p : Page) : sched_ok p → sched_ok (handle p Click).
Proof.
  intros [Hn Hs]. cbn [handle]. unfold rerender, playPause_cleanup.
  destruct (isPlaying p) eqn:Hp.
  - destruct Hs as (id & Hs & Hr & Hid).
    rewrite (cancel_current_one (togglePlayPause p) id true) by (assumption || lia).
    unfold playPause_effect, togglePlayPause. cbn. rewrite Hp. cbn.
    rewrite cancel_current_none by reflexivity.
    unfold sched_ok. cbn. auto.
  - rewrite (cancel_current_none (togglePlayPause p)) by exact Hs.
    apply sched_ok_play; unfold togglePlayPause; cbn;
      [exact Hn | rewrite Hp; reflexivity | exact Hs].
Qed.

(** A frame while playing: what the callback of the waiting request
    does to the page. *)
Lemma frame_playing (p : Page) (id : Z) :
  scheduled p = [(id, true)] →
  handle p (AnimationFrame id)
  = {| component := updateBalls (component p);
       isPlaying := isPlaying p;
       animationRef := Some (next_id p);
       context2d := drawBalls (context2d p) (updateBalls (component p));
       scheduled := [(next_id p, true)];
       next_id := (next_id p + 1)%Z;
       entropy := entropy p |}.
Proof.
  intros Hs. cbn [handle]. rewrite Hs. cbn. rewrite Z.eqb_refl.
  unfold cancelAnimationFrame. rewrite Hs. cbn. rewrite Z.eqb_refl.
  reflexivity.
Qed.

(** A frame for a request that does not wait does nothing. *)
Lemma frame_other (p : Page) (id : Z) :
  (∀ e : Z * bool, e ∈ scheduled p → fst e ≠ id) →
  handle p (AnimationFrame id) = p.
Proof.
  intros Hno. cbn [handle].
  destruct (List.find _ (scheduled p)) as [[id' k]|] eqn:E; [|reflexivity].
  apply List.find_some in E as [Hin Heq].
  apply list_elem_of_In, Hno in Hin. apply Z.eqb_eq in Heq. contradiction.
Qed.

Lemma sched_ok_frame (p : Page) (id : Z) :
  sched_ok p → sched_ok (handle p (AnimationFrame id)).
Proof.
  intros [Hn Hs]. destruct (isPlaying p) eqn:Hp.
  - destruct Hs as (id0 & Hs & Hr & Hid).
    destruct (Z.eq_dec id0 id) as [<-|Hne].
    + rewrite (frame_playing p id0 Hs). unfold sched_ok. cbn. rewrite Hp.
      split; [lia|]. exists (next_id p). repeat split; lia.
    + rewrite frame_other.
      * unfold sched_ok. rewrite Hp. eauto 10.
      * intros e He. rewrite Hs in He. apply list_elem_of_singleton in He.
        subst e. exact Hne.
  - rewrite frame_other.
    + unfold sched_ok. rewrite Hp. auto.
    + intros e He. rewrite Hs in He. inversion He.
Qed.

Lemma sched_ok_handle (p : Page) (e : Event) :
  sched_ok p → sched_ok (handle p e).
Proof.
  destruct e as [|id|parentElement].
  - apply sched_ok_click.
  - apply sched_ok_frame.
  - apply sched_ok_resize.
Qed.

Lemma sched_ok_mount (canvas : Canvas) (parentElement : option Container)
    (ctx : option (list DrawCmd)) (rs : RandomSource) :
  sched_ok (mount canvas parentElement ctx rs).
Proof.
  unfold mount.
  match goal with |- sched_ok (playPause_effect (page_resize _ ?p)) =>
    destruct (page_resize_fields parentElement p) as (H1 & _ & H3 & H4 & _)
  end.
  apply sched_ok_play; [rewrite H4; reflexivity | rewrite H1; reflexivity
                       | rewrite H3; reflexivity].
Qed.

Lemma sched_ok_run (p : Page) (events : list Event) :
  sched_ok p → sched_ok (run p events).
Proof.
  revert p. induction events as [|e events IH]; intros p Hp; [exact Hp|].
  apply IH, sched_ok_handle, Hp.
Qed.

(** X13.  On a mounted page, after any clicks, frames and resizes: while
    playing exactly one [animate] callback waits for the next frame, it
    is the one whose id [animationRef] holds and it was made while
    playing; while paused no callback waits. *)
Theorem one_request_while_playing (canvas : Canvas)
    (parentElement : option Container) (ctx : option (list DrawCmd))
    (rs : RandomSource) (events : list Event) :
  let p := run (mount canvas parentElement ctx rs) events in
  (isPlaying p = true →
   ∃ id : Z, scheduled p = [(id, true)] ∧ animationRef p = Some id) ∧
  (isPlaying p = false → scheduled p = []).
Proof.
  intros p.
  destruct (sched_ok_run _ events
              (sched_ok_mount canvas parentElement ctx rs)) as [_ H].
  fold p in H. destruct (isPlaying p).
  - split; [|discriminate]. intros _. destruct H as (id & ? & ? & _). eauto.
  - split; [discriminate|]. intros _. exact H.
Qed.

(** X14.  On a mounted page that is paused, a frame changes nothing: no
    ball moves and nothing is drawn or requested until the next click or
    resize. *)
Theorem paused_page_ignores_frames (canvas : Canvas)
    (parentElement : option Container) (ctx : option (list DrawCmd))
    (rs : RandomSource) (events : list Event) (id : Z) :
  let p := run (mount canvas parentElement ctx rs) events in
  isPlaying p = false →
  handle p (AnimationFrame id) = p.
Proof.
  intros p Hp.
  destruct (sched_ok_run _ events
              (sched_ok_mount canvas parentElement ctx rs)) as [_ H].
  fold p in H. rewrite Hp in H.
  apply frame_other. intros e He. rewrite H in He. inversion He.
Qed.

Lemma paused_page_ignores_frames_witness :
  handle (run page0 [AnimationFrame 1; AnimationFrame 2; Click]) (AnimationFrame 3)
  = run page0 [AnimationFrame 1; AnimationFrame 2; Click].
Proof.
  apply (paused_page_ignores_frames canvas0 (Some container0) (Some [])
           draws_alt [AnimationFrame 1; AnimationFrame 2; Click] 3).
  reflexivity.
Defined.

(** X15.  On a mounted page that is playing, the frame of the waiting
    request makes exactly one step of the balls, draws the balls after
    the step, and leaves exactly one new request waiting; a frame for
    any other id changes nothing. *)
Theorem playing_frame_is_one_step (canvas : Canvas)
    (parentElement : option Container) (ctx : option (list DrawCmd))
    (rs : RandomSource) (events : list Event) :
  let p := run (mount canvas parentElement ctx rs) events in
  isPlaying p = true →
  ∃ id : Z,
    animationRef p = Some id ∧
    component (handle p (AnimationFrame id)) = updateBalls (component p) ∧
    context2d (handle p (AnimationFrame id))
    = drawBalls (context2d p) (updateBalls (component p)) ∧
    scheduled (handle p (AnimationFrame id)) = [(next_id p, true)] ∧
    animationRef (handle p (AnimationFrame id)) = Some (next_id p) ∧
    isPlaying (handle p (AnimationFrame id)) = true ∧
    ∀ id' : Z, id' ≠ id → handle p (AnimationFrame id') = p.
Proof.
  intros p Hp.
  destruct (sched_ok_run _ events
              (sched_ok_mount canvas parentElement ctx rs)) as [_ H].
  fold p in H. rewrite Hp in H. destruct H as (id & Hs & Hr & _).
  exists id. rewrite (frame_playing p id Hs). cbn.
  repeat split; try assumption.
  intros id' Hne. apply frame_other. intros e He. rewrite Hs in He.
  apply list_elem_of_singleton in He. subst e. cbn. congruence.
Qed.

Lemma playing_frame_is_one_step_witness :
  ∃ id : Z,
    animationRef page0 = Some id ∧
    component (handle page0 (AnimationFrame id)) = updateBalls (component page0).
Proof.
  destruct (playing_frame_is_one_step canvas0 (Some container0) (Some [])
              draws_alt [] eq_refl) as (id & H1 & H2 & _).
  exists id. split; [exact H1|exact H2].
Defined.

(** X16.  Unmounting a mounted page, after any clicks, frames and
    resizes, leaves no callback waiting for a frame. *)
Theorem unmount_cancels_request (canvas : Canvas)
    (parentElement : option Container) (ctx : option (list DrawCmd))
    (rs : RandomSource) (events : list Event) :
  scheduled (unmount (run (mount canvas parentElement ctx rs) events)) = [].
Proof.
  set (p := run (mount canvas parentElement ctx rs) events).
  destruct (sched_ok_run _ events
              (sched_ok_mount canvas parentElement ctx rs)) as [_ H].
  fold p in H. unfold unmount, playPause_cleanup.
  destruct (isPlaying p).
  - destruct H as (id & Hs & Hr & Hid).
    rewrite (cancel_current_one p id true) by (assumption || lia). reflexivity.
  - rewrite cancel_current_none by exact H. exact H.
Qed.

(** ** The page: the balls *)

Lemma cancel_current_fields (p : Page) :
  component (cancel_current p) = component p ∧
  entropy (cancel_current p) = entropy p ∧
  isPlaying (cancel_current p) = isPlaying p ∧
  context2d (cancel_current p) = context2d p.
Proof.
  unfold cancel_current. destruct (animationRef p) as [id|]; [|auto].
  destruct (truthy (Some id)); auto.
Qed.

Lemma playPause_effect_fields (p : Page) :
  component (playPause_effect p) = component p ∧
  entropy (playPause_effect p) = entropy p ∧
  isPlaying (playPause_effect p) = isPlaying p ∧
  context2d (playPause_effect p) = context2d p.
Proof.
  unfold playPause_effect. destruct (isPlaying p) eqn:Hp.
  - cbn. auto.
  - rewrite <- Hp. apply cancel_current_fields.
Qed.

(** A click touches neither the balls, the drawing nor the random
    source; it flips [isPlaying]. *)
Lemma click_fields (p : Page) :
  component (handle p Click) = component p ∧
  entropy (handle p Click) = entropy p ∧
  isPlaying (handle p Click) = negb (isPlaying p) ∧
  context2d (handle p Click) = context2d p.
Proof.
  cbn [handle]. unfold rerender, playPause_cleanup.
  destruct (playPause_effect_fields (cancel_current (togglePlayPause p)))
    as (-> & -> & -> & ->).
  destruct (cancel_current_fields (togglePlayPause p)) as (-> & -> & -> & ->).
  repeat split.
Qed.

(** A frame leaves the balls as they are or makes one step; it never
    draws from the random source. *)
Lemma frame_fields (p : Page) (id : Z) :
  (component (handle p (AnimationFrame id)) = component p ∨
   component (handle p (AnimationFrame id)) = updateBalls (component p)) ∧
  entropy (handle p (AnimationFrame id)) = entropy p.
Proof.
  cbn [handle].
  destruct (List.find _ (scheduled p)) as [[id' [|]]|]; cbn; auto.
Qed.

Lemma count_ok_update (app : App) : count_ok app → count_ok (updateBalls app).
Proof.
  intros ([canvas Hc] & Hlen & Hcount). unfold count_ok.
  rewrite updateBalls_canvasRef, (updateBalls_canvas app canvas Hc), length_fmap.
  split; [eauto|]. split; [exact Hlen|].
  unfold updateBalls. rewrite Hc. exact Hcount.
Qed.

Lemma resizeCanvas_canvasRef (parentElement : option Container) (app : App) :
  is_Some (canvasRef app) → is_Some (canvasRef (resizeCanvas parentElement app)).
Proof.
  intros [canvas Hc]. unfold resizeCanvas. rewrite Hc.
  destruct parentElement; [eexists; reflexivity|]. rewrite Hc. eauto.
Qed.

Lemma count_ok_resize (parentElement : option Container) (app : App)
    (rs : RandomSource) :
  is_Some (canvasRef app) →
  count_ok (fst (handleResize parentElement app rs)).
Proof.
  intros Hc. apply (resizeCanvas_canvasRef parentElement) in Hc.
  destruct Hc as [canvas Hc]. unfold handleResize, count_ok.
  rewrite initializeBalls_canvasRef.
  split; [eauto|]. apply (initializeBalls_length _ canvas rs Hc).
Qed.

Lemma count_ok_handle (p : Page) (e : Event) :
  count_ok (component p) → count_ok (component (handle p e)).
Proof.
  intros H. destruct e as [|id|parentElement].
  - destruct (click_fields p) as (-> & _). exact H.
  - destruct (frame_fields p id) as ([-> | ->] & _);
      [exact H|apply count_ok_update, H].
  - cbn [handle].
    destruct (page_resize_fields parentElement p) as (_ & _ & _ & _ & _ & -> & _).
    apply count_ok_resize, H.
Qed.

Lemma count_ok_mount (canvas : Canvas) (parentElement : option Container)
    (ctx : option (list DrawCmd)) (rs : RandomSource) :
  count_ok (component (mount canvas parentElement ctx rs)).
Proof.
  unfold mount.
  match goal with |- count_ok (component (playPause_effect ?q)) =>
    destruct (playPause_effect_fields q) as (-> & _)
  end.
  match goal with |- count_ok (component (page_resize _ ?q)) =>
    destruct (page_resize_fields parentElement q) as (_ & _ & _ & _ & _ & -> & _)
  end.
  apply count_ok_resize. eexists. reflexivity.
Qed.

Lemma count_ok_run (p : Page) (events : list Event) :
  count_ok (component p) → count_ok (component (run p events)).
Proof.
  revert p. induction events as [|e events IH]; intros p Hp; [exact Hp|].
  apply (IH (handle p e)), count_ok_handle, Hp.
Qed.

(** X17.  On a mounted page, after any clicks, frames and resizes, the
    component has its canvas and exactly [BALL_COUNT] balls, and the
    count shown in the header is the number of balls. *)
Theorem shown_count_is_ball_count (canvas : Canvas)
    (parentElement : option Container) (ctx : option (list DrawCmd))
    (rs : RandomSource) (events : list Event) :
  let p := run (mount canvas parentElement ctx rs) events in
  is_Some (canvasRef (component p)) ∧
  length (ballsRef (component p)) = BALL_COUNT ∧
  fst (shown p) = length (ballsRef (component p)).
Proof.
  intros p.
  assert (H : count_ok (component p))
    by apply count_ok_run, count_ok_mount.
  destruct H as (Hc & Hlen & Hcount).
  split; [exact Hc|]. split; [exact Hlen|].
  unfold shown. cbn [fst]. rewrite Hcount, Hlen. reflexivity.
Qed.

Lemma ball_ok_new (canvas : Canvas) (i : Z) (rx ry rvx rvy rc : Q) :
  2 * BALL_RADIUS <= width canvas →
  2 * BALL_RADIUS <= height canvas →
  (0 <= rx ∧ rx < 1) → (0 <= ry ∧ ry < 1) → (0 <= rvx ∧ rvx < 1) →
  (0 <= rvy ∧ rvy < 1) → (0 <= rc ∧ rc < 1) →
  ball_ok canvas (ball_of_draws canvas i rx ry rvx rvy rc).
Proof.
  intros Hw Hh [? ?] [? ?] [? ?] [? ?] [? ?].
  unfold ball_ok, ball_of_draws, in_bounds.
  cbn [Ball.radius Ball.x Ball.y Ball.vx Ball.vy Ball.color].
  split; [reflexivity|]. split.
  { split; apply drawn_position_in_bounds; assumption. }
  unfold SPEED_MULTIPLIER. change (2 / 2) with (2 # 2).
  split; [apply Qabs_Qle_condition; split; lra|].
  split; [apply Qabs_Qle_condition; split; lra|].
  apply array_get_in_range, color_index_range; assumption.
Qed.

Lemma ball_ok_update (canvas : Canvas) (b : Ball.t) :
  ball_ok canvas b → ball_ok canvas (update_ball canvas b).
Proof.
  intros (Hr & Hin & Hvx & Hvy & Hcol). unfold ball_ok.
  destruct (update_ball_frame canvas b) as (_ & -> & ->).
  destruct (update_ball_speed canvas b) as (-> & ->).
  split; [exact Hr|]. split; [apply update_ball_within, Hin|]. auto.
Qed.

Lemma balls_ok_update (app : App) : balls_ok app → balls_ok (updateBalls app).
Proof.
  intros (canvas & Hc & Hb). exists canvas.
  split; [rewrite updateBalls_canvasRef; exact Hc|].
  intros b Hin. rewrite (updateBalls_canvas app canvas Hc) in Hin.
  apply list_elem_of_fmap in Hin as (b0 & -> & Hin).
  apply ball_ok_update, Hb, Hin.
Qed.

Lemma balls_ok_resize (parentElement : option Container) (app : App)
    (rs : RandomSource) :
  is_Some (canvasRef app) → roomy parentElement → unit_draws rs →
  balls_ok (fst (handleResize parentElement app rs)).
Proof.
  intros [canvas Hc] (container & -> & Hw & Hh) Hrs.
  set (canvas' := {| width := clientWidth container;
                     height := clientHeight container |}).
  assert (Hr : canvasRef (resizeCanvas (Some container) app) = Some canvas')
    by (unfold resizeCanvas; rewrite Hc; reflexivity).
  exists canvas'. unfold handleResize.
  split; [rewrite initializeBalls_canvasRef; exact Hr|].
  intros b Hin.
  destruct (initializeBalls_elem _ canvas' rs b Hr Hin) as (j & _ & ->).
  apply ball_ok_new; try assumption; apply Hrs.
Qed.

Lemma balls_ok_handle (p : Page) (e : Event) :
  roomy_event e →
  balls_ok (component p) ∧ unit_draws (entropy p) →
  balls_ok (component (handle p e)) ∧ unit_draws (entropy (handle p e)).
Proof.
  intros He [Hb Hrs]. destruct e as [|id|parentElement].
  - destruct (click_fields p) as (-> & -> & _). auto.
  - destruct (frame_fields p id) as ([-> | ->] & ->);
      [auto|split; [apply balls_ok_update, Hb|exact Hrs]].
  - cbn [handle].
    destruct (page_resize_fields parentElement p)
      as (_ & _ & _ & _ & _ & -> & ->).
    split.
    + destruct Hb as (canvas & Hc & _).
      apply balls_ok_resize; [eauto|exact He|exact Hrs].
    + unfold handleResize. apply unit_draws_rest, Hrs.
Qed.

Lemma balls_ok_mount (canvas : Canvas) (parentElement : option Container)
    (ctx : option (list DrawCmd)) (rs : RandomSource) :
  roomy parentElement → unit_draws rs →
  balls_ok (component (mount canvas parentElement ctx rs)) ∧
  unit_draws (entropy (mount canvas parentElement ctx rs)).
Proof.
  intros Hroomy Hrs. unfold mount.
  match goal with |- balls_ok (component (playPause_effect ?q)) ∧ _ =>
    destruct (playPause_effect_fields q) as (-> & -> & _)
  end.
  match goal with |- balls_ok (component (page_resize _ ?q)) ∧ _ =>
    destruct (page_resize_fields parentElement q)
      as (_ & _ & _ & _ & _ & -> & ->)
  end.
  cbn [component entropy]. split.
  - apply balls_ok_resize; [eexists; reflexivity|exact Hroomy|exact Hrs].
  - unfold handleResize. apply unit_draws_rest, Hrs.
Qed.

Lemma roomy_container0 : roomy (Some container0).
Proof.
  exists container0. split; [reflexivity|]. split; vm_compute; discriminate.
Qed.

Lemma balls_ok_run (p : Page) (events : list Event) :
  Forall roomy_event events →
  balls_ok (component p) ∧ unit_draws (entropy p) →
  balls_ok (component (run p events)) ∧ unit_draws (entropy (run p events)).
Proof.
  intros Hev. revert p.
  induction Hev as [|e events He _ IH]; intros p Hp; [exact Hp|].
  apply (IH (handle p e)), balls_ok_handle; assumption.
Qed.

(** X18.  On a page mounted in a container at least two ball radii wide
    and high, with draws in [0, 1), after any clicks, frames and resizes
    to such containers: every ball has the radius [BALL_RADIUS], lies
    within the walls of the canvas as it is now, moves no faster than
    [SPEED_MULTIPLIER / 2] along each axis, and has a colour of the
    palette. *)
Theorem mounted_page_balls_ok (canvas : Canvas)
    (parentElement : option Container) (ctx : option (list DrawCmd))
    (rs : RandomSource) (events : list Event) :
  roomy parentElement →
  unit_draws rs →
  Forall roomy_event events →
  balls_ok (component (run (mount canvas parentElement ctx rs) events)).
Proof.
  intros Hroomy Hrs Hev.
  apply (balls_ok_run _ events Hev), balls_ok_mount; assumption.
Qed.

Lemma mounted_page_balls_ok_witness :
  balls_ok (component (run page0 events0)).
Proof.
  apply (mounted_page_balls_ok canvas0 (Some container0) (Some []) draws_alt
           events0 roomy_container0 draws_alt_unit).
  repeat constructor. exact roomy_container0.
Defined.

(** ** The page: what a frame paints *)

Lemma drawBalls_is_Some (ctx : option (list DrawCmd)) (app : App) :
  is_Some ctx → is_Some (drawBalls ctx app).
Proof.
  intros [calls ->]. unfold drawBalls.
  destruct (canvasRef app); eexists; reflexivity.
Qed.

Lemma context_handle (p : Page) (e : Event) :
  is_Some (context2d p) → is_Some (context2d (handle p e)).
Proof.
  intros H. destruct e as [|id|parentElement].
  - destruct (click_fields p) as (_ & _ & _ & ->). exact H.
  - cbn [handle].
    destruct (List.find _ (scheduled p)) as [[id' [|]]|]; cbn;
      [apply drawBalls_is_Some|..]; exact H.
  - cbn [handle].
    destruct (page_resize_fields parentElement p) as (_ & _ & _ & _ & -> & _).
    exact H.
Qed.

Lemma context_run (p : Page) (events : list Event) :
  is_Some (context2d p) → is_Some (context2d (run p events)).
Proof.
  revert p. induction events as [|e events IH]; intros p Hp; [exact Hp|].
  apply (IH (handle p e)), context_handle, Hp.
Qed.

Lemma context_mount (canvas : Canvas) (parentElement : option Container)
    (calls : list DrawCmd) (rs : RandomSource) :
  is_Some (context2d (mount canvas parentElement (Some calls) rs)).
Proof.
  unfold mount.
  match goal with |- is_Some (context2d (playPause_effect ?q)) =>
    destruct (playPause_effect_fields q) as (_ & _ & _ & ->)
  end.
  match goal with |- is_Some (context2d (page_resize _ ?q)) =>
    destruct (page_resize_fields parentElement q) as (_ & _ & _ & _ & -> & _)
  end.
  eexists. reflexivity.
Qed.

(** X19.  On a page with a 2D context, mounted in a container at least
    two ball radii wide and high, with draws in [0, 1), after any
    clicks, frames and resizes to such containers: when the page is
    playing, the frame of the waiting request only adds calls to the
    context, and these paint the rectangle of the canvas in "#f0f0f0"
    and then exactly [BALL_COUNT] full-turn arcs of radius
    [BALL_RADIUS], each in a colour of the palette and centred at least
    a radius away from every wall of the canvas. *)
Theorem frame_paints_balls_inside (canvas : Canvas)
    (parentElement : option Container) (calls0 : list DrawCmd)
    (rs : RandomSource) (events : list Event) :
  roomy parentElement →
  unit_draws rs →
  Forall roomy_event events →
  let p := run (mount canvas parentElement (Some calls0) rs) events in
  isPlaying p = true →
  ∃ (id : Z) (cv : Canvas) (calls new : list DrawCmd),
    animationRef p = Some id ∧
    canvasRef (component p) = Some cv ∧
    context2d p = Some calls ∧
    context2d (handle p (AnimationFrame id)) = Some (calls ++ new) ∧
    ∀ pen : Pen,
      ∃ discs : list Painted,
        snd (paint pen new)
        = PaintedRect 0 0 (width cv) (height cv) "#f0f0f0"%string :: discs ∧
        length discs = BALL_COUNT ∧
        ∀ d : Painted,
          d ∈ discs →
          ∃ (x y : Q) (c : string),
            d = PaintedArc x y BALL_RADIUS 0 (Math_PI * 2) c ∧
            c ∈ colors ∧
            (BALL_RADIUS <= x ∧ x <= width cv - BALL_RADIUS) ∧
            (BALL_RADIUS <= y ∧ y <= height cv - BALL_RADIUS).
Proof.
  intros Hroomy Hrs Hev p Hp.
  set (q := mount canvas parentElement (Some calls0) rs) in p.
  destruct (sched_ok_run q events (sched_ok_mount _ _ _ _)) as [_ Hs].
  fold p in Hs. rewrite Hp in Hs. destruct Hs as (id & Hs & Hr & _).
  destruct (context_run q events (context_mount _ _ _ _)) as [calls Hctx].
  fold p in Hctx.
  destruct (balls_ok_run q events Hev
              (balls_ok_mount _ _ _ _ Hroomy Hrs)) as [Hb _].
  fold p in Hb. apply balls_ok_update in Hb. destruct Hb as (cv & Hcv & Hb).
  pose proof (count_ok_update _ (count_ok_run q events (count_ok_mount _ _ _ _)))
    as (_ & Hlen & _).
  fold p in Hlen.
  assert (Hcv0 : canvasRef (component p) = Some cv)
    by (rewrite <- updateBalls_canvasRef; exact Hcv).
  exists id, cv, calls. eexists.
  split; [exact Hr|]. split; [exact Hcv0|]. split; [exact Hctx|].
  rewrite (frame_playing p id Hs). cbn [context2d]. rewrite Hctx.
  split; [apply (drawBalls_calls _ cv calls Hcv)|].
  intros pen. eexists. split.
  - unfold paint. rewrite foldl_app. cbn [foldl paint_call].
    rewrite paint_draw_balls; [reflexivity|].
    intros b Hin. destruct (Hb b Hin) as (_ & _ & _ & _ & c & -> & _). eauto.
  - split; [rewrite length_fmap; exact Hlen|].
    intros d Hd. apply list_elem_of_fmap in Hd as (b & -> & Hin).
    destruct (Hb b Hin) as (Hrad & [Hx Hy] & _ & _ & c & Hc & Hpal).
    exists (Ball.x b), (Ball.y b), c. unfold disc_of.
    rewrite Hc, Hrad in *. cbn [default]. auto.
Qed.

Lemma frame_paints_balls_inside_witness :
  ∃ (id : Z) (calls new : list DrawCmd),
    animationRef (run page0 events0) = Some id ∧
    context2d (run page0 events0) = Some calls ∧
    context2d (handle (run page0 events0) (AnimationFrame id))
    = Some (calls ++ new) ∧
    ∃ discs : list Painted,
      snd (paint pen0 new)
      = PaintedRect 0 0 640 480 "#f0f0f0"%string :: discs ∧
      length discs = 20%nat.
Proof.
  destruct (frame_paints_balls_inside canvas0 (Some container0) [] draws_alt
              events0 roomy_container0 draws_alt_unit)
    as (id & cv & calls & new & H1 & H2 & H3 & H4 & H5).
  - repeat constructor. exact roomy_container0.
  - reflexivity.
  - exists id, calls, new. split; [exact H1|]. split; [exact H3|].
    split; [exact H4|].
    destruct (H5 pen0) as (discs & Hd & Hl & _). exists discs.
    assert (Hcv : cv = {| width := 640; height := 480 |}).
    { assert (E : canvasRef (component (run page0 events0))
                  = Some {| width := 640; height := 480 |}) by reflexivity.
      unfold page0 in E. rewrite H2 in E. congruence. }
    subst cv. split; [exact Hd|exact Hl].
Defined.

(** X20.  A click on the button flips [isPlaying] and touches nothing
    else of the simulation: the canvas, the balls, the count, what has
    been drawn and the random source are as before; pausing and playing
    again never moves or re-creates a ball. *)
Theorem click_only_toggles (p : Page) :
  isPlaying (handle p Click) = negb (isPlaying p) ∧
  component (handle p Click) = component p ∧
  context2d (handle p Click) = context2d p ∧
  entropy (handle p Click) = entropy p ∧
  component (run p [Click; Click]) = component p ∧
  isPlaying (run p [Click; Click]) = isPlaying p.
Proof.
  destruct (click_fields p) as (Hc & He & Hp & Hx).
  destruct (click_fields (handle p Click)) as (Hc' & _ & Hp' & _).
  split; [exact Hp|]. split; [exact Hc|]. split; [exact Hx|].
  split; [exact He|]. cbn [run foldl].
  split; [rewrite Hc'; exact Hc|].
  rewrite Hp', Hp. apply negb_involutive.
Qed.
